(** * tadepool-utils: a shallow embedding of [src/utils.ts]

    The library is a handful of recursive functions over JSON-like values:
    [toTitleCase], [camelize], [isValid], [groupBy], [normalize], [areEqual]
    and [sanitize].  Each is translated below from the TypeScript source and
    the properties the specification states about them are proved (or
    refuted) afterwards.

    Modelling choices.
    - A JavaScript value is a [Value]: the primitives the code dispatches on
      with [typeof], function values (opaque, compared by identity), arrays
      (lists, without holes) and plain objects.
    - A plain object (a record) is the list of its own enumerable
      string-keyed properties, in the order [Object.keys] lists them, and
      its prototype is [Object.prototype].  [obj_get] reads an own
      property; [obj_read] is the property read [o[k]] for any key, which
      falls back on the members of [Object.prototype] (eleven functions and
      the accessor [__proto__]); [obj_set] is the assignment [o[k] = v]: it
      overwrites an own property in place, creates no property for the key
      [__proto__] (the inherited setter takes the value), and otherwise adds
      the key where [Object.keys] will list it, array indices first in
      ascending order, then the other keys in the order they were added.
    - The prototype is not a component of a record.  The one place where
      the code can change it, [result["__proto__"] = _v] in [sanitize] with
      an object [_v], is modelled by what it does to the own properties
      (nothing); what the result then inherits from [_v] is not
      represented.
    - A string is a [string]; each [ascii] stands for one code unit.
      [trim] and [split] follow ECMAScript on those code units.  The
      locale-sensitive case conversions are an interface ([CaseMapping]),
      with the Basic Latin mapping as its instance.
    - A number is an IEEE-754 value ([spec_float]) so that [===] keeps its
      behaviour on [NaN] and on signed zeros.
    - Recursion that follows [o[k]] or [a[i]] is not structural; those
      functions are defined by well-founded recursion on [size]. *)

From Equations Require Import Equations.
From Stdlib Require Import String Ascii List Arith Lia Bool ZArith.
From Stdlib Require Import Permutation.
From Stdlib Require Import Floats.SpecFloat.
Import ListNotations.

Open Scope string_scope.
Open Scope nat_scope.
Open Scope list_scope.

(** ** Strings *)

Module JsString.

(** White space and line terminators removed by [String.prototype.trim],
    restricted to one-byte code units: TAB, LF, VT, FF, CR, SP, NBSP. *)
Definition is_white_space (c : ascii) : bool :=
  let n := nat_of_ascii c in
  ((9 <=? n) && (n <=? 13)) || (n =? 32) || (n =? 160).

Fixpoint trimStart (s : string) : string :=
  match s with
  | EmptyString => EmptyString
  | String c rest => if is_white_space c then trimStart rest else s
  end.

Fixpoint trimEnd (s : string) : string :=
  match s with
  | EmptyString => EmptyString
  | String c rest =>
      match trimEnd rest with
      | EmptyString => if is_white_space c then EmptyString else String c EmptyString
      | kept => String c kept
      end
  end.

Definition trim (s : string) : string := trimEnd (trimStart s).

(** [s.substring(start, end)] for [start <= end], and [s.substring(start)]. *)
Definition substring (s : string) (start end_ : nat) : string :=
  String.substring start (end_ - start) s.

Definition substringFrom (s : string) (start : nat) : string :=
  String.substring start (String.length s - start) s.

Fixpoint drop (n : nat) (s : string) : string :=
  match n, s with
  | S n', String _ rest => drop n' rest
  | _, _ => s
  end.

Fixpoint code_units (s : string) : list string :=
  match s with
  | EmptyString => []
  | String c rest => String c EmptyString :: code_units rest
  end.

Fixpoint has_char (c : ascii) (s : string) : bool :=
  match s with
  | EmptyString => false
  | String c' rest => Ascii.eqb c' c || has_char c rest
  end.

Lemma length_drop n s : String.length (drop n s) <= String.length s.
Proof.
  revert s; induction n as [|n IH]; intros [|c s]; simpl; try lia.
  specialize (IH s); lia.
Qed.

(** The scanning loop of [String.prototype.split] for a non-empty
    separator: [segment] is the text read since the last match. *)
Equations? split_loop (separator s segment : string) : list string
  by wf (String.length s) lt :=
  split_loop separator EmptyString segment := [segment];
  split_loop separator (String c rest) segment
    with String.prefix separator (String c rest) := {
    | true :=
        segment
          :: split_loop separator
               (drop (Nat.pred (String.length separator)) rest) EmptyString;
    | false := split_loop separator rest (segment ++ String c EmptyString)%string }.
Proof.
  pose proof (length_drop (Nat.pred (String.length separator)) rest).
  simpl. lia.
Qed.

(** [s.split(separator)] with a string separator and no limit. *)
Definition split (s separator : string) : list string :=
  match separator with
  | EmptyString => code_units s
  | _ => split_loop separator s EmptyString
  end.

(** [pieces.join(separator)]. *)
Definition join (pieces : list string) (separator : string) : string :=
  String.concat separator pieces.

Definition upper_ascii (c : ascii) : ascii :=
  let n := nat_of_ascii c in
  if (97 <=? n) && (n <=? 122) then ascii_of_nat (n - 32) else c.

Definition lower_ascii (c : ascii) : ascii :=
  let n := nat_of_ascii c in
  if (65 <=? n) && (n <=? 90) then ascii_of_nat (n + 32) else c.

Fixpoint map_string (f : ascii -> ascii) (s : string) : string :=
  match s with
  | EmptyString => EmptyString
  | String c rest => String (f c) (map_string f rest)
  end.

End JsString.

(** The host's case conversions.  They depend on the locale and on the
    Unicode tables; the code only relies on them being functions on strings
    that leave the empty string alone, and on no conversion of any host
    turning a character into an underscore: a converted string has one
    only if the string had one. *)
Class CaseMapping : Type := {
  toLocaleLowerCase : string -> string;
  toLocaleUpperCase : string -> string;
  toLocaleLowerCase_empty : toLocaleLowerCase "" = "";
  toLocaleUpperCase_empty : toLocaleUpperCase "" = "";
  toLocaleLowerCase_underscore :
    forall s, JsString.has_char "_" (toLocaleLowerCase s) = true ->
              JsString.has_char "_" s = true;
  toLocaleUpperCase_underscore :
    forall s, JsString.has_char "_" (toLocaleUpperCase s) = true ->
              JsString.has_char "_" s = true
}.

Lemma lower_ascii_underscore c :
  Ascii.eqb (JsString.lower_ascii c) "_" = true -> Ascii.eqb c "_" = true.
Proof.
  destruct c as [[] [] [] [] [] [] [] []]; vm_compute; intros H;
    solve [reflexivity | discriminate H].
Qed.

Lemma upper_ascii_underscore c :
  Ascii.eqb (JsString.upper_ascii c) "_" = true -> Ascii.eqb c "_" = true.
Proof.
  destruct c as [[] [] [] [] [] [] [] []]; vm_compute; intros H;
    solve [reflexivity | discriminate H].
Qed.

Lemma map_string_underscore (f : ascii -> ascii) s :
  (forall c, Ascii.eqb (f c) "_" = true -> Ascii.eqb c "_" = true) ->
  JsString.has_char "_" (JsString.map_string f s) = true ->
  JsString.has_char "_" s = true.
Proof.
  intros Hf. induction s as [|c s IH]; simpl; [trivial|].
  rewrite !orb_true_iff. intros [H|H]; [left; now apply Hf|right; now apply IH].
Qed.

(** Basic Latin: the mapping every locale agrees on for unaccented letters
    other than [i]/[I]. *)
#[export] Instance basic_latin : CaseMapping := {|
  toLocaleLowerCase := JsString.map_string JsString.lower_ascii;
  toLocaleUpperCase := JsString.map_string JsString.upper_ascii;
  toLocaleLowerCase_empty := eq_refl;
  toLocaleUpperCase_empty := eq_refl;
  toLocaleLowerCase_underscore :=
    fun s => map_string_underscore JsString.lower_ascii s lower_ascii_underscore;
  toLocaleUpperCase_underscore :=
    fun s => map_string_underscore JsString.upper_ascii s upper_ascii_underscore
|}.

(** ** Values *)

#[warnings="-register-all"]
Inductive Value : Set :=
| VUndefined
| VNull
| VBool (b : bool)
| VNumber (n : spec_float)
| VBigInt (z : Z)
| VString (s : string)
| VFunction (id : nat)
| VArray (items : list Value)
| VObject (props : list (string * Value)).

Definition object : Set := list (string * Value).

Inductive jstype : Type :=
| TUndefined | TObject | TBoolean | TNumber | TBigint | TString | TFunction.

Definition typeof (v : Value) : jstype :=
  match v with
  | VUndefined => TUndefined
  | VNull | VArray _ | VObject _ => TObject
  | VBool _ => TBoolean
  | VNumber _ => TNumber
  | VBigInt _ => TBigint
  | VString _ => TString
  | VFunction _ => TFunction
  end.

Definition jstype_eqb (t1 t2 : jstype) : bool :=
  match t1, t2 with
  | TUndefined, TUndefined | TObject, TObject | TBoolean, TBoolean
  | TNumber, TNumber | TBigint, TBigint | TString, TString
  | TFunction, TFunction => true
  | _, _ => false
  end.

Definition isArray (v : Value) : bool :=
  match v with VArray _ => true | _ => false end.

Definition isNull (v : Value) : bool :=
  match v with VNull => true | _ => false end.

(** ToBoolean, as applied by [!x] and [if (x)]. *)
Definition truthy (v : Value) : bool :=
  match v with
  | VUndefined | VNull => false
  | VBool b => b
  | VNumber S754_nan | VNumber (S754_zero _) => false
  | VNumber _ => true
  | VBigInt z => negb (Z.eqb z 0)
  | VString s => negb (Nat.eqb (String.length s) 0)
  | VFunction _ | VArray _ | VObject _ => true
  end.

(** [a === b] on values that are not both arrays or plain objects; for
    those [===] is reference identity, which [areEqual] never asks for. *)
Definition strict_equals (a b : Value) : bool :=
  match a, b with
  | VUndefined, VUndefined => true
  | VNull, VNull => true
  | VBool x, VBool y => Bool.eqb x y
  | VNumber x, VNumber y => SFeqb x y
  | VBigInt x, VBigInt y => Z.eqb x y
  | VString x, VString y => String.eqb x y
  | VFunction x, VFunction y => Nat.eqb x y
  | _, _ => false
  end.

(** The number written as the integer literal [z].  The mantissa is not
    normalised to binary64; the code only looks at a number's sign, at
    whether it is zero or [NaN], and at [===]. *)
Definition num (z : Z) : Value :=
  match z with
  | Z0 => VNumber (S754_zero false)
  | Zpos p => VNumber (S754_finite false p 0)
  | Zneg p => VNumber (S754_finite true p 0)
  end.

(** [a[i]]: out-of-range reads give [undefined]. *)
Definition array_get (a : list Value) (i : nat) : Value := nth i a VUndefined.

(** The indices [0 .. a.length-1] that [forEach], [map], [some] and
    [every] visit. *)
Definition indices (a : list Value) : list nat := seq 0 (length a).

(** The value of the own property [k] of [o], [undefined] when [o] has no
    such property.  It is what [o[k]] reads when [k] comes from
    [Object.keys(o)]. *)
Fixpoint obj_get (o : object) (k : string) : Value :=
  match o with
  | [] => VUndefined
  | (k', v) :: rest => if String.eqb k' k then v else obj_get rest k
  end.

(** [Object.keys(o)]. *)
Definition obj_keys (o : object) : list string := map fst o.

(** [k in Object.keys(o)]. *)
Definition has_own (o : object) (k : string) : bool :=
  existsb (String.eqb k) (obj_keys o).

(** *** What a plain object inherits

    A record stands for an object whose prototype is [Object.prototype].
    Its members, which every record inherits, are eleven built-in functions
    (the function identities 100 to 110 are reserved for them) and the
    accessor [__proto__]. *)
Definition object_prototype_functions : list (string * nat) :=
  [("constructor", 100); ("__defineGetter__", 101); ("__defineSetter__", 102);
   ("hasOwnProperty", 103); ("__lookupGetter__", 104); ("__lookupSetter__", 105);
   ("isPrototypeOf", 106); ("propertyIsEnumerable", 107); ("toString", 108);
   ("valueOf", 109); ("toLocaleString", 110)].

(** [Object.prototype] as a value: an object without enumerable own key.
    Its other members are never looked at: it is only met as the second
    argument of [areEqual], which reads [value2[key]] for the keys of
    [value1] once both have the same number of keys, here none. *)
Definition Object_prototype : Value := VObject [].

Definition is_prototype_member (k : string) : bool :=
  String.eqb k "__proto__"
  || existsb (fun m => String.eqb (fst m) k) object_prototype_functions.

(** What [o[k]] reads when [k] is not an own key: the getter of
    [__proto__] returns the prototype, a method name its function, any
    other key [undefined]. *)
Definition inherited (k : string) : Value :=
  if String.eqb k "__proto__" then Object_prototype
  else
    match find (fun m => String.eqb (fst m) k) object_prototype_functions with
    | Some m => VFunction (snd m)
    | None => VUndefined
    end.

(** [o[k]], for any key. *)
Definition obj_read (o : object) (k : string) : Value :=
  if has_own o k then obj_get o k else inherited k.

(** *** The order of keys

    [Object.keys] lists the keys that are array indices (canonical decimal
    numerals below [2^32 - 1]) in ascending order, then the others in the
    order they were added. *)
Definition digit (c : ascii) : option N :=
  let n := N_of_ascii c in
  if ((48 <=? n) && (n <=? 57))%N then Some (n - 48)%N else None.

Fixpoint decimal (s : string) (acc : N) : option N :=
  match s with
  | EmptyString => Some acc
  | String c rest =>
      match digit c with
      | Some d => decimal rest (10 * acc + d)%N
      | None => None
      end
  end.

Definition key_index (k : string) : option N :=
  match k with
  | EmptyString => None
  | String c rest =>
      if Ascii.eqb c "0" then
        if String.eqb rest EmptyString then Some 0%N else None
      else
        match decimal k 0 with
        | Some n => if (n <? 4294967295)%N then Some n else None
        | None => None
        end
  end.

(** [k] may come before [k'] in [Object.keys]. *)
Definition key_before (k k' : string) : bool :=
  match key_index k, key_index k' with
  | Some n, Some m => (n <=? m)%N
  | Some _, None => true
  | None, Some _ => false
  | None, None => true
  end.

(** A list of keys in the order [Object.keys] gives them. *)
Fixpoint key_order (keys : list string) : bool :=
  match keys with
  | [] => true
  | k :: rest => forallb (key_before k) rest && key_order rest
  end.

(** *** Assignment *)

(** Writing an own property: its place among the keys does not change. *)
Fixpoint obj_update (o : object) (k : string) (v : Value) : object :=
  match o with
  | [] => []
  | (k', v') :: rest =>
      if String.eqb k' k then (k', v) :: rest else (k', v') :: obj_update rest k v
  end.

(** Creating an own property: an array index goes to its place among the
    indices, any other key after all the keys. *)
Fixpoint obj_insert (o : object) (k : string) (v : Value) : object :=
  match o with
  | [] => [(k, v)]
  | (k', v') :: rest =>
      if key_before k' k then (k', v') :: obj_insert rest k v
      else (k, v) :: (k', v') :: rest
  end.

(** [o[k] = v].  An own property is overwritten.  Otherwise the key
    [__proto__] reaches the setter inherited from [Object.prototype], which
    creates no own property (given an object it replaces the prototype of
    [o], which is not part of a record: see the head of the file); any
    other key becomes a new own property. *)
Definition obj_set (o : object) (k : string) (v : Value) : object :=
  if has_own o k then obj_update o k v
  else if String.eqb k "__proto__" then o
  else obj_insert o k v.

(** Number of constructors below a value; the termination measure. *)
Fixpoint size (v : Value) : nat :=
  match v with
  | VArray items => S (fold_right (fun x n => size x + n) 0 items)
  | VObject props => S (fold_right (fun kv n => size (snd kv) + n) 0 props)
  | _ => 0
  end.

Lemma size_array_get a i : size (array_get a i) < size (VArray a).
Proof.
  unfold array_get. cbn. revert i.
  induction a as [|x a IH]; intros [|i]; cbn; try lia.
  specialize (IH i). lia.
Qed.

Lemma size_obj_get o k : size (obj_get o k) < size (VObject o).
Proof.
  cbn. induction o as [|[k' v] o IH]; cbn; try lia.
  destruct (String.eqb k' k); lia.
Qed.

Lemma size_inherited k : size (inherited k) <= 1.
Proof.
  unfold inherited. destruct (String.eqb k "__proto__"); [simpl; lia|].
  destruct (find _ _); simpl; lia.
Qed.

Lemma size_obj_read o k : size (obj_read o k) <= size (VObject o).
Proof.
  unfold obj_read. destruct (has_own o k).
  - pose proof (size_obj_get o k). lia.
  - pose proof (size_inherited k). simpl. lia.
Qed.

(** Objects as the runtime builds them: no key twice, at any depth. *)
Fixpoint nodupb (l : list string) : bool :=
  match l with
  | [] => true
  | k :: rest => negb (existsb (String.eqb k) rest) && nodupb rest
  end.

Fixpoint well_formed (v : Value) : bool :=
  match v with
  | VArray items => forallb well_formed items
  | VObject props =>
      nodupb (map fst props) && forallb (fun kv => well_formed (snd kv)) props
  | _ => true
  end.


(** [p] holds of the keys of every record of the value, at any depth. *)
Fixpoint keys_satisfy (p : list string -> bool) (v : Value) : bool :=
  match v with
  | VArray items => forallb (keys_satisfy p) items
  | VObject props =>
      p (map fst props) && forallb (fun kv => keys_satisfy p (snd kv)) props
  | _ => true
  end.

(** No record has an own key named [__proto__]. *)
Definition no_proto_key : Value -> bool :=
  keys_satisfy (fun keys => negb (existsb (String.eqb "__proto__") keys)).


(** The keys of every record are listed as [Object.keys] lists them. *)
Definition in_key_order : Value -> bool := keys_satisfy key_order.


(** ** Validity oracle: [isValid] (utils.ts, lines 53-77)

    [some] visits the indices of the array and reads [value[i]]; on a plain
    object the keys are visited and [value[k]] is read, which is an own
    property since [k] comes from [Object.keys(value)]. *)

Equations? isValid (value : Value) : bool by wf (size value) lt :=
  isValid (VString s) := negb (Nat.eqb (String.length (JsString.trim s)) 0);
  isValid VNull := false;
  isValid (VArray items) :=
    existsb (fun i => isValid (array_get items i)) (indices items);
  isValid (VObject props) :=
    existsb (fun k => isValid (obj_get props k)) (obj_keys props);
  isValid (VNumber _) := true;
  isValid (VBigInt _) := true;
  isValid (VBool _) := true;
  isValid _ := false.
Proof.
  - apply size_array_get.
  - apply size_obj_get.
Qed.

(** ** Sanitizer: [sanitize] (utils.ts, lines 218-249)

    [push] appends to [sanitizedArray]; [v[k]] reads an own property;
    [result[k] = _v] is the assignment [obj_set] on the fresh [result]. *)

Equations? sanitize (value : Value) : Value by wf (size value) lt :=
  sanitize (VString s) := VString (JsString.trim s);
  sanitize VNull := VNull;
  sanitize (VArray items) :=
    VArray
      (fold_left
         (fun sanitizedArray i =>
            let sanitizedV := sanitize (array_get items i) in
            if isValid sanitizedV then sanitizedArray ++ [sanitizedV]
            else sanitizedArray)
         (indices items) []);
  sanitize (VObject v) :=
    VObject
      (fold_left
         (fun result k =>
            let _v := sanitize (obj_get v k) in
            if isValid _v then obj_set result k _v else result)
         (obj_keys v) []);
  sanitize value := value.
Proof.
  - apply size_array_get.
  - apply size_obj_get.
Qed.

(** The loop of [sanitize] over the entries of a record: each valid
    sanitized value is assigned to [result]. *)
Definition sanitize_fold (f : Value -> Value) (l init : object) : object :=
  fold_left
    (fun result kv =>
       if isValid (f (snd kv)) then obj_set result (fst kv) (f (snd kv)) else result)
    l init.

(** The entries of a record whose sanitized value is valid, sanitized, in
    input order. *)
Definition sanitized_entries (props : object) : object :=
  filter (fun kv => isValid (snd kv))
    (map (fun kv => (fst kv, sanitize (snd kv))) props).

(** ** Case transformer, key renamer and deep equality

    These three depend on the host's case conversions. *)

Section Casing.

Context {CM : CaseMapping}.

(** [toTitleCase] (utils.ts, lines 10-22).  The default value of its second
    parameter: *)
Definition default_splitter : string := " ".

(** The callback of [toTitleCase]'s [map]. *)
Definition capitalize (v : string) : string :=
  (toLocaleUpperCase (JsString.substring v 0 1)
     ++ toLocaleLowerCase (JsString.substringFrom v 1))%string.

(** [toTitleCase] on a value that passed the [typeof] guard. *)
Definition titleCase (value splitter : string) : string :=
  JsString.join (map capitalize (JsString.split value splitter)) " ".

Definition toTitleCase (value : Value) (splitter : string) : Value :=
  match value with
  | VString s => VString (titleCase s splitter)
  | _ => value
  end.

(** The new name [camelizeObject] computes for [key].  [split] with a
    non-empty separator returns at least one segment, so [splittedKey[0]]
    is always a string. *)
Definition transformedKey (key : string) : string :=
  let splittedKey := JsString.split key "_" in
  (toLocaleLowerCase (hd "" splittedKey)
     ++ JsString.join
          (map (fun k => titleCase k default_splitter) (skipn 1 splittedKey))
          "")%string.

(** The specification's wording of the per-segment step: uppercase the
    first character and lowercase the remainder; an empty segment gives an
    empty piece. *)
Definition title_piece (segment : string) : string :=
  match segment with
  | EmptyString => EmptyString
  | String first remainder =>
      (toLocaleUpperCase (String first EmptyString)
         ++ toLocaleLowerCase remainder)%string
  end.

(** The specification's wording of the renaming of a key without
    underscore: the first letter lowercased, the rest unchanged. *)
Definition lowercase_first_letter (key : string) : string :=
  (toLocaleLowerCase (JsString.substring key 0 1)
     ++ JsString.substringFrom key 1)%string.

(** [camelizeObject] and [camelizeArray] (utils.ts, lines 251-288) call
    each other; [camelizer] says which of the two is running. *)
Inductive camelizer : Set := CamelizeObject | CamelizeArray.

Definition camelizer_weight (fn : camelizer) : nat :=
  match fn with CamelizeObject => 1 | CamelizeArray => 0 end.

Equations? camelizeWith (fn : camelizer) (v : Value) : Value
  by wf (2 * size v + camelizer_weight fn) lt :=
  camelizeWith CamelizeObject (VArray obj) :=
    camelizeWith CamelizeArray (VArray obj);
  camelizeWith CamelizeObject (VObject input) :=
    VObject
      (fold_left
         (fun result key =>
            let value := obj_get input key in
            obj_set result (transformedKey key)
              (camelizeWith CamelizeObject value))
         (obj_keys input) []);
  camelizeWith CamelizeObject obj := obj;
  camelizeWith CamelizeArray (VArray arr) :=
    VArray
      (map
         (fun i =>
            if isArray (array_get arr i)
            then camelizeWith CamelizeArray (array_get arr i)
            else camelizeWith CamelizeObject (array_get arr i))
         (indices arr));
  camelizeWith CamelizeArray arr := arr.
Proof.
  - lia.
  - pose proof (size_obj_get input key). subst value. simpl in *. lia.
  - pose proof (size_array_get arr i). simpl in *. lia.
  - pose proof (size_array_get arr i). simpl in *. lia.
Qed.

Definition camelizeObject (obj : Value) : Value := camelizeWith CamelizeObject obj.
Definition camelizeArray (arr : Value) : Value := camelizeWith CamelizeArray arr.

Definition camelize (value : Value) : Value :=
  match value with
  | VArray _ => camelizeArray value
  | VObject _ => camelizeObject value
  | _ => value
  end.

(** What [areEqual] answers without recursion: kinds that differ, [null],
    an array against a plain object, and the [default] branch.  Two strings,
    two arrays and two plain objects never reach it (see [areEqual]). *)
Definition areEqual_leaf (value1 value2 : Value) : bool :=
  if negb (jstype_eqb (typeof value1) (typeof value2)) then false
  else
    match typeof value1 with
    | TObject =>
        if isNull value1 || isNull value2 then strict_equals value1 value2
        else false
    | _ => strict_equals value1 value2
    end.

(** [areEqual] (utils.ts, lines 145-193).  The array branch iterates
    [value2] and calls itself with the arguments swapped; the record branch
    iterates the keys of [v1]: [v1[key]] is an own read, [v2[key]] may
    reach what [v2] inherits. *)
Equations? areEqual (value1 value2 : Value) (trimWhiteSpace ignoreCase : bool)
  : bool by wf (size value1 + size value2) lt :=
  areEqual (VString s1) (VString s2) trimWhiteSpace ignoreCase :=
    let v1 := if trimWhiteSpace then JsString.trim s1 else s1 in
    let v2 := if trimWhiteSpace then JsString.trim s2 else s2 in
    if ignoreCase
    then String.eqb (toLocaleLowerCase v1) (toLocaleLowerCase v2)
    else String.eqb v1 v2;
  areEqual (VArray value1) (VArray value2) trimWhiteSpace ignoreCase :=
    Nat.eqb (length value1) (length value2)
    && forallb
         (fun index =>
            areEqual (array_get value2 index) (array_get value1 index)
              trimWhiteSpace ignoreCase)
         (indices value2);
  areEqual (VObject v1) (VObject v2) trimWhiteSpace ignoreCase :=
    let keys := obj_keys v1 in
    Nat.eqb (length keys) (length (obj_keys v2))
    && forallb
         (fun key =>
            areEqual (obj_get v1 key) (obj_read v2 key)
              trimWhiteSpace ignoreCase)
         keys;
  areEqual value1 value2 _ _ := areEqual_leaf value1 value2.
Proof.
  - pose proof (size_array_get value1 index).
    pose proof (size_array_get value2 index). simpl in *. lia.
  - pose proof (size_obj_get v1 key).
    pose proof (size_obj_read v2 key). simpl in *. lia.
Qed.

End Casing.

(** ** Collection indexer: [groupBy] and [normalize]

    A function value is known by its identity; [fn_call id item] is what
    calling it on [item] returns, [None] when the call throws.  Results are
    [Some] of the returned value, or [None] when an exception escapes. *)

Section Indexer.

Variable fn_call : nat -> Value -> option string.

(** The reducer of [groupBy] (utils.ts, lines 93-103).  [accumulator[key]]
    is created when falsy; [accumulator[key]?.push] then appends, does
    nothing on [null] and [undefined], and throws on anything else, such as
    a member the accumulator inherits from [Object.prototype], which has no
    [push]. *)
Definition groupBy_step (f : nat) (accumulator : option object)
    (currentItem : Value) : option object :=
  match accumulator with
  | None => None
  | Some accumulator =>
      match fn_call f currentItem with
      | None => None
      | Some key =>
          if negb (isValid (VString key)) then Some accumulator
          else
            let accumulator :=
              if negb (truthy (obj_read accumulator key))
              then obj_set accumulator key (VArray [])
              else accumulator in
            match obj_read accumulator key with
            | VArray group =>
                Some (obj_set accumulator key (VArray (group ++ [currentItem])))
            | VUndefined | VNull => Some accumulator
            | _ => None
            end
      end
  end.

Definition groupBy (value keyGenerator : Value) : option Value :=
  match value, keyGenerator with
  | VArray items, VFunction f =>
      option_map VObject (fold_left (groupBy_step f) items (Some []))
  | _, _ => Some (VObject [])
  end.

(** The reducer of [normalize] (utils.ts, lines 121-130). *)
Definition normalize_step (f : nat) (accumulator : option object)
    (currentItem : Value) : option object :=
  match accumulator with
  | None => None
  | Some accumulator =>
      match fn_call f currentItem with
      | None => None
      | Some key =>
          if negb (isValid (VString key)) then Some accumulator
          else if negb (truthy (obj_read accumulator key))
          then Some (obj_set accumulator key currentItem)
          else Some accumulator
      end
  end.

Definition normalize (value keyGenerator : Value) : option Value :=
  match value, keyGenerator with
  | VArray items, VFunction f =>
      option_map VObject (fold_left (normalize_step f) items (Some []))
  | _, _ => Some (VObject [])
  end.

End Indexer.


(** ** Invariant assertion: [invarient] (utils.ts, lines 200-207)

    A call either returns or throws an [Error] carrying [message]. *)

Inductive outcome : Set :=
| Returns
| Throws (message : option string).

Definition invarient (condition : Value) (message : option string) : outcome :=
  if negb (truthy condition) then Throws message else Returns.

(** ** Predicates used to state properties *)

(** No number of the value is [NaN], at any depth. *)
Fixpoint nan_free (v : Value) : bool :=
  match v with
  | VNumber S754_nan => false
  | VArray items => forallb nan_free items
  | VObject props => forallb (fun kv => nan_free (snd kv)) props
  | _ => true
  end.

(** Nothing is left to remove: every string is trimmed, and every element
    of an array and every value of a record is valid, at any depth. *)
Fixpoint clean (v : Value) : bool :=
  match v with
  | VString s => String.eqb (JsString.trim s) s
  | VArray items => forallb (fun x => isValid x && clean x) items
  | VObject props => forallb (fun kv => isValid (snd kv) && clean (snd kv)) props
  | _ => true
  end.

(** At any depth: no two keys of a record are given the same name by
    [camelizeObject], no key is [__proto__], and the keys, before and after
    renaming, are listed as [Object.keys] lists them. *)
Fixpoint rename_safe {CM : CaseMapping} (v : Value) : bool :=
  match v with
  | VArray items => forallb rename_safe items
  | VObject props =>
      nodupb (map transformedKey (obj_keys props))
      && negb (existsb (String.eqb "__proto__") (obj_keys props))
      && key_order (obj_keys props)
      && key_order (map transformedKey (obj_keys props))
      && forallb (fun kv => rename_safe (snd kv)) props
  | _ => true
  end.

(** The elements of [items] whose derived key is [k], in input order; none
    when [k] is not a valid key. *)
Definition members (keyOf : Value -> string) (items : list Value) (k : string)
    : list Value :=
  if isValid (VString k) then filter (fun x => String.eqb (keyOf x) k) items
  else [].

(** A group as [groupBy] stores it: an array once it has an element. *)
Definition group_value (group : list Value) : Value :=
  match group with
  | [] => VUndefined
  | _ => VArray group
  end.

(** * Properties *)

(** ** Induction on values *)

Section ValueInduction.

Variable P : Value -> Prop.
Hypothesis P_undefined : P VUndefined.
Hypothesis P_null : P VNull.
Hypothesis P_bool : forall b, P (VBool b).
Hypothesis P_number : forall n, P (VNumber n).
Hypothesis P_bigint : forall z, P (VBigInt z).
Hypothesis P_string : forall s, P (VString s).
Hypothesis P_function : forall id, P (VFunction id).
Hypothesis P_array : forall items, Forall P items -> P (VArray items).
Hypothesis P_object :
  forall props, Forall (fun kv => P (snd kv)) props -> P (VObject props).

Fixpoint value_rect' (v : Value) : P v :=
  match v with
  | VUndefined => P_undefined
  | VNull => P_null
  | VBool b => P_bool b
  | VNumber n => P_number n
  | VBigInt z => P_bigint z
  | VString s => P_string s
  | VFunction id => P_function id
  | VArray items =>
      P_array items
        ((fix all (l : list Value) : Forall P l :=
            match l with
            | [] => Forall_nil P
            | x :: l' => Forall_cons x (value_rect' x) (all l')
            end) items)
  | VObject props =>
      P_object props
        ((fix all (l : list (string * Value)) : Forall (fun kv => P (snd kv)) l :=
            match l with
            | [] => Forall_nil _
            | kv :: l' => Forall_cons kv (value_rect' (snd kv)) (all l')
            end) props)
  end.

End ValueInduction.

(** ** Arrays and objects *)

Lemma map_array_get a : map (array_get a) (indices a) = a.
Proof.
  unfold indices, array_get.
  induction a as [|x a IH]; simpl; [reflexivity|].
  f_equal. rewrite <- seq_shift, map_map. simpl. exact IH.
Qed.

Lemma existsb_indices (f : Value -> bool) a :
  existsb (fun i => f (array_get a i)) (indices a) = existsb f a.
Proof.
  rewrite <- (map_array_get a) at 2.
  induction (indices a) as [|i l IH]; simpl; [reflexivity|].
  now rewrite IH.
Qed.

Lemma map_indices {B} (f : Value -> B) a :
  map (fun i => f (array_get a i)) (indices a) = map f a.
Proof.
  rewrite <- (map_array_get a) at 2. now rewrite map_map.
Qed.

Lemma fold_left_indices {B} (g : B -> Value -> B) a init :
  fold_left (fun acc i => g acc (array_get a i)) (indices a) init
  = fold_left g a init.
Proof.
  rewrite <- (map_array_get a) at 2.
  revert init. induction (indices a) as [|i l IH]; intros; simpl; auto.
Qed.

Lemma nodupb_NoDup l : nodupb l = true <-> NoDup l.
Proof.
  induction l as [|k l IH]; simpl.
  - split; [constructor | reflexivity].
  - rewrite andb_true_iff, negb_true_iff, IH. split.
    + intros [Hn Hd]. constructor; [|assumption].
      intros Hin. apply not_true_iff_false in Hn. apply Hn.
      apply existsb_exists. exists k. split; [assumption|apply String.eqb_refl].
    + intros H. inversion H as [|? ? Hn Hd]; subst. split; [|assumption].
      apply not_true_iff_false. intros Hex.
      apply existsb_exists in Hex as [k' [Hin Heq]].
      apply String.eqb_eq in Heq. subst. contradiction.
Qed.

Lemma has_own_In o k : has_own o k = true <-> In k (obj_keys o).
Proof.
  unfold has_own. rewrite existsb_exists. split.
  - intros [k' [Hin Heq]]. apply String.eqb_eq in Heq. now subst.
  - intros Hin. exists k. split; [assumption|apply String.eqb_refl].
Qed.

Lemma obj_get_absent o k : ~ In k (obj_keys o) -> obj_get o k = VUndefined.
Proof.
  induction o as [|[k' v] o IH]; simpl; intros Hn; [reflexivity|].
  destruct (String.eqb_spec k' k) as [->|Hne].
  - exfalso. apply Hn. now left.
  - apply IH. intros Hin. apply Hn. now right.
Qed.

(** Reading back an own property of an object without repeated keys. *)
Lemma obj_get_In o k v :
  NoDup (obj_keys o) -> In (k, v) o -> obj_get o k = v.
Proof.
  induction o as [|[k' v'] o IH]; simpl; intros Hnd Hin; [contradiction|].
  inversion Hnd as [|? ? Hn Hd]; subst.
  destruct Hin as [Heq|Hin].
  - inversion Heq; subst. now rewrite String.eqb_refl.
  - destruct (String.eqb_spec k' k) as [->|Hne].
    + exfalso. apply Hn. change (In (fst (k, v)) (map fst o)). now apply in_map.
    + now apply IH.
Qed.

Lemma obj_get_own_In o k :
  In k (obj_keys o) -> In (k, obj_get o k) o.
Proof.
  induction o as [|[k' v'] o IH]; simpl; intros Hin; [contradiction|].
  destruct (String.eqb_spec k' k) as [->|Hne].
  - now left.
  - right. apply IH. destruct Hin as [Heq|Hin]; [contradiction|assumption].
Qed.

Lemma entries_of_keys o :
  NoDup (obj_keys o) -> map (fun k => (k, obj_get o k)) (obj_keys o) = o.
Proof.
  intros Hnd. unfold obj_keys. rewrite map_map.
  rewrite <- (map_id o) at 2. apply map_ext_in.
  intros [k v] Hin. simpl. f_equal. now apply obj_get_In.
Qed.

Lemma existsb_keys (f : Value -> bool) o :
  NoDup (obj_keys o) ->
  existsb (fun k => f (obj_get o k)) (obj_keys o)
  = existsb (fun kv => f (snd kv)) o.
Proof.
  intros Hnd.
  transitivity
    (existsb (fun kv => f (snd kv)) (map (fun k => (k, obj_get o k)) (obj_keys o))).
  - clear Hnd. induction (obj_keys o) as [|k l IH]; simpl; [reflexivity|].
    now rewrite IH.
  - now rewrite entries_of_keys.
Qed.

Lemma fold_left_keys {B} (g : B -> string -> Value -> B) o init :
  NoDup (obj_keys o) ->
  fold_left (fun acc k => g acc k (obj_get o k)) (obj_keys o) init
  = fold_left (fun acc kv => g acc (fst kv) (snd kv)) o init.
Proof.
  intros Hnd.
  transitivity
    (fold_left (fun acc kv => g acc (fst kv) (snd kv))
       (map (fun k => (k, obj_get o k)) (obj_keys o)) init).
  - clear Hnd. revert init.
    induction (obj_keys o) as [|k l IH]; intros; simpl; auto.
  - now rewrite entries_of_keys.
Qed.

(** *** Reading what is inherited *)

Lemma has_own_false o k : ~ In k (obj_keys o) -> has_own o k = false.
Proof.
  intros H. apply not_true_iff_false. intros E. apply H. now apply has_own_In.
Qed.

Lemma has_own_true o k : In k (obj_keys o) -> has_own o k = true.
Proof. apply has_own_In. Qed.

Lemma obj_read_own o k : In k (obj_keys o) -> obj_read o k = obj_get o k.
Proof. intros H. unfold obj_read. now rewrite has_own_true. Qed.

Lemma inherited_ordinary k : is_prototype_member k = false -> inherited k = VUndefined.
Proof.
  unfold is_prototype_member, inherited. intros H.
  apply orb_false_iff in H as [Hp Hm]. rewrite Hp.
  destruct (find _ _) as [m|] eqn:F; [|reflexivity].
  apply find_some in F as [Hin Hk].
  apply not_true_iff_false in Hm. exfalso. apply Hm.
  apply existsb_exists. now exists m.
Qed.

(** A key that names no member of [Object.prototype] reads as the own
    property does. *)
Lemma obj_read_ordinary o k :
  is_prototype_member k = false -> obj_read o k = obj_get o k.
Proof.
  intros H. unfold obj_read. destruct (has_own o k) eqn:E; [reflexivity|].
  rewrite inherited_ordinary by assumption. symmetry. apply obj_get_absent.
  intros Hin. apply has_own_In in Hin. congruence.
Qed.

Lemma not_proto_of_ordinary k : is_prototype_member k = false -> k <> "__proto__".
Proof.
  unfold is_prototype_member. intros H E. subst k. discriminate H.
Qed.

(** *** The order of keys *)

Lemma key_before_total k k' : key_before k k' = false -> key_before k' k = true.
Proof.
  unfold key_before. destruct (key_index k), (key_index k'); try discriminate;
    try reflexivity.
  intros H. apply N.leb_gt in H. apply N.leb_le. lia.
Qed.

Lemma key_before_trans k1 k2 k3 :
  key_before k1 k2 = true -> key_before k2 k3 = true -> key_before k1 k3 = true.
Proof.
  unfold key_before.
  destruct (key_index k1), (key_index k2), (key_index k3); try discriminate;
    try reflexivity.
  intros H1 H2. apply N.leb_le in H1, H2. apply N.leb_le. lia.
Qed.

Lemma key_order_app l1 l2 :
  key_order (l1 ++ l2) = true
  <-> key_order l1 = true /\ key_order l2 = true
      /\ forall a b, In a l1 -> In b l2 -> key_before a b = true.
Proof.
  induction l1 as [|k l1 IH]; simpl.
  - split; [intros H; repeat split; [assumption|intros a b []]|now intros (_ & H & _)].
  - rewrite !andb_true_iff, forallb_app, andb_true_iff, IH, !forallb_forall. split.
    + intros [[H1 H2] (H3 & H4 & H5)]. repeat split; try assumption.
      intros a b [<-|Ha] Hb; [now apply H2|now apply H5].
    + intros ([H1 H3] & H4 & H5). repeat split; try assumption.
      * intros b Hb. apply H5; [now left|assumption].
      * intros a b Ha Hb. apply H5; [now right|assumption].
Qed.

Lemma key_order_remove l1 k l2 :
  key_order (l1 ++ k :: l2) = true -> key_order (l1 ++ l2) = true.
Proof.
  rewrite !key_order_app. simpl. rewrite andb_true_iff.
  intros (H1 & [_ H2] & H3). repeat split; try assumption.
  intros a b Ha Hb. apply H3; [assumption|now right].
Qed.

Lemma key_order_map_filter {A} (g : A -> string) (q : A -> bool) l :
  key_order (map g l) = true -> key_order (map g (filter q l)) = true.
Proof.
  induction l as [|x l IH]; simpl; [reflexivity|].
  rewrite andb_true_iff. intros [H1 H2].
  destruct (q x); simpl; [|now apply IH].
  rewrite andb_true_iff. split; [|now apply IH].
  rewrite forallb_forall in *. intros y Hy. apply H1.
  apply in_map_iff in Hy as [z [<- Hz]]. apply in_map.
  now apply filter_In in Hz as [Hz _].
Qed.

(** *** Assignment *)

Lemma obj_keys_obj_update o k v : obj_keys (obj_update o k v) = obj_keys o.
Proof.
  unfold obj_keys. induction o as [|[k' v'] o IH]; simpl; [reflexivity|].
  destruct (String.eqb k' k); simpl; [reflexivity|]. now rewrite IH.
Qed.

Lemma obj_get_obj_update o k v k' :
  In k (obj_keys o) ->
  obj_get (obj_update o k v) k' = if String.eqb k k' then v else obj_get o k'.
Proof.
  induction o as [|[k0 v0] o IH]; simpl; intros Hin; [contradiction|].
  destruct (String.eqb_spec k0 k) as [->|Hne]; simpl.
  - now destruct (String.eqb k k').
  - destruct Hin as [E|Hin]; [contradiction|]. rewrite IH by assumption.
    destruct (String.eqb_spec k0 k') as [->|Hne'].
    + destruct (String.eqb_spec k k'); [congruence|reflexivity].
    + reflexivity.
Qed.

Lemma obj_insert_Permutation o k v : Permutation (obj_insert o k v) ((k, v) :: o).
Proof.
  induction o as [|[k' v'] o IH]; simpl; [reflexivity|].
  destruct (key_before k' k); [|reflexivity].
  rewrite IH. apply perm_swap.
Qed.

Lemma obj_keys_obj_insert o k v :
  Permutation (obj_keys (obj_insert o k v)) (k :: obj_keys o).
Proof.
  unfold obj_keys. change (k :: map fst o) with (map fst ((k, v) :: o)).
  apply Permutation_map, obj_insert_Permutation.
Qed.

Lemma obj_get_obj_insert o k v k' :
  ~ In k (obj_keys o) ->
  obj_get (obj_insert o k v) k' = if String.eqb k k' then v else obj_get o k'.
Proof.
  induction o as [|[k0 v0] o IH]; simpl; intros Hn; [reflexivity|].
  destruct (key_before k0 k); simpl.
  - rewrite IH by (intros H; apply Hn; now right).
    destruct (String.eqb_spec k0 k') as [->|Hne]; [|reflexivity].
    destruct (String.eqb_spec k k') as [->|_]; [|reflexivity].
    exfalso. apply Hn. now left.
  - reflexivity.
Qed.

(** An appended key stays last when the keys so extended are in order. *)
Lemma obj_insert_append o k v :
  (forall k', In k' (obj_keys o) -> key_before k' k = true) ->
  obj_insert o k v = o ++ [(k, v)].
Proof.
  induction o as [|[k' v'] o IH]; simpl; intros H; [reflexivity|].
  rewrite (H k' (or_introl eq_refl)). f_equal. apply IH.
  intros k'' Hin. apply H. now right.
Qed.

Lemma key_order_obj_insert o k v :
  key_order (obj_keys o) = true -> key_order (obj_keys (obj_insert o k v)) = true.
Proof.
  induction o as [|[k' v'] o IH]; simpl; [reflexivity|].
  rewrite andb_true_iff. intros [H1 H2].
  destruct (key_before k' k) eqn:B; simpl.
  - rewrite andb_true_iff. split; [|now apply IH].
    rewrite forallb_forall in *. intros x Hx.
    apply (Permutation_in _ (obj_keys_obj_insert o k v)) in Hx as [<-|Hx];
      [assumption|now apply H1].
  - apply key_before_total in B. rewrite B. simpl.
    rewrite H2, andb_true_r. rewrite !andb_true_iff. split; [|].
    + rewrite forallb_forall in *. intros x Hx.
      apply (key_before_trans k k' x); [assumption|now apply H1].
    + exact H1.
Qed.

(** [o[k] = v] read back, for any key but [__proto__]. *)
Lemma obj_get_obj_set o k v k' :
  k <> "__proto__" ->
  obj_get (obj_set o k v) k' = if String.eqb k k' then v else obj_get o k'.
Proof.
  intros Hk. unfold obj_set. destruct (has_own o k) eqn:E.
  - apply obj_get_obj_update. now apply has_own_In.
  - apply String.eqb_neq in Hk. rewrite Hk. apply obj_get_obj_insert.
    intros Hin. apply has_own_In in Hin. congruence.
Qed.

Lemma obj_keys_obj_set o k v k' :
  In k' (obj_keys (obj_set o k v))
  <-> (k' = k /\ k <> "__proto__") \/ In k' (obj_keys o).
Proof.
  unfold obj_set. destruct (has_own o k) eqn:E.
  - rewrite obj_keys_obj_update. apply has_own_In in E. split; [now right|].
    intros [[-> _]|H]; assumption.
  - destruct (String.eqb_spec k "__proto__") as [->|Hne].
    + split; [now right|]. intros [[_ H]|H]; [contradiction|assumption].
    + split.
      * intros H. apply (Permutation_in _ (obj_keys_obj_insert o k v)) in H.
        destruct H as [<-|H]; [now left|now right].
      * intros H.
        apply (Permutation_in _ (Permutation_sym (obj_keys_obj_insert o k v))).
        destruct H as [[-> _]|H]; [now left|now right].
Qed.

Lemma NoDup_obj_set o k v : NoDup (obj_keys o) -> NoDup (obj_keys (obj_set o k v)).
Proof.
  intros Hnd. unfold obj_set. destruct (has_own o k) eqn:E.
  - now rewrite obj_keys_obj_update.
  - destruct (String.eqb k "__proto__"); [assumption|].
    apply (Permutation_NoDup (Permutation_sym (obj_keys_obj_insert o k v))).
    constructor; [|assumption]. intros Hin. apply has_own_In in Hin. congruence.
Qed.

Lemma key_order_obj_set o k v :
  key_order (obj_keys o) = true -> key_order (obj_keys (obj_set o k v)) = true.
Proof.
  intros H. unfold obj_set. destruct (has_own o k).
  - now rewrite obj_keys_obj_update.
  - destruct (String.eqb k "__proto__"); [assumption|].
    now apply key_order_obj_insert.
Qed.

(** A new key other than [__proto__] is added with its value, and nothing
    else changes. *)
Lemma obj_set_entries o k v e :
  ~ In k (obj_keys o) -> k <> "__proto__" ->
  In e (obj_set o k v) <-> e = (k, v) \/ In e o.
Proof.
  intros Hn Hk. unfold obj_set. rewrite (has_own_false o k Hn).
  apply String.eqb_neq in Hk. rewrite Hk. split; intros H.
  - apply (Permutation_in _ (obj_insert_Permutation o k v)) in H.
    destruct H as [<-|H]; [now left|now right].
  - apply (Permutation_in _ (Permutation_sym (obj_insert_Permutation o k v))).
    destruct H as [->|H]; [now left|now right].
Qed.

Lemma obj_set_proto o v :
  ~ In "__proto__" (obj_keys o) -> obj_set o "__proto__" v = o.
Proof. intros Hn. unfold obj_set. now rewrite (has_own_false o _ Hn). Qed.

(** A new key that is in order after the keys there are is added last. *)
Lemma obj_set_append o k v :
  ~ In k (obj_keys o) -> k <> "__proto__" ->
  key_order (obj_keys o ++ [k]) = true ->
  obj_set o k v = o ++ [(k, v)].
Proof.
  intros Hn Hk Hord. unfold obj_set. rewrite (has_own_false o k Hn).
  apply String.eqb_neq in Hk. rewrite Hk. apply obj_insert_append.
  apply key_order_app in Hord as (_ & _ & H). intros k' Hin.
  apply H; [assumption|now left].
Qed.

(** ** Trimming *)

Module TrimFacts.
Import JsString.

Lemma trimEnd_idempotent s : trimEnd (trimEnd s) = trimEnd s.
Proof.
  induction s as [|c s IH]; simpl; [reflexivity|].
  destruct (trimEnd s) as [|d kept] eqn:E.
  - destruct (is_white_space c) eqn:W; simpl; [reflexivity|].
    now rewrite W.
  - change (trimEnd (String c (String d kept))) with
      (match trimEnd (String d kept) with
       | EmptyString =>
           if is_white_space c then EmptyString else String c EmptyString
       | kept' => String c kept'
       end).
    now rewrite IH.
Qed.

Lemma trimStart_head s :
  trimStart s = EmptyString
  \/ exists c rest, trimStart s = String c rest /\ is_white_space c = false.
Proof.
  induction s as [|c s IH]; simpl; [now left|].
  destruct (is_white_space c) eqn:W; [exact IH|].
  right. now exists c, s.
Qed.

Lemma trimEnd_head c s :
  is_white_space c = false -> exists kept, trimEnd (String c s) = String c kept.
Proof.
  intros W. simpl. destruct (trimEnd s) as [|d kept].
  - rewrite W. now exists EmptyString.
  - now exists (String d kept).
Qed.

Lemma trim_idempotent s : trim (trim s) = trim s.
Proof.
  unfold trim. destruct (trimStart_head s) as [E | (c & rest & E & W)]; rewrite E.
  - reflexivity.
  - destruct (trimEnd_head c rest W) as [kept K].
    rewrite K. simpl trimStart. rewrite W. rewrite <- K.
    apply trimEnd_idempotent.
Qed.

End TrimFacts.

(** ** The equations of [isValid] and [sanitize] on containers *)

Lemma isValid_array items : isValid (VArray items) = existsb isValid items.
Proof. simp isValid. apply existsb_indices. Qed.

Lemma isValid_object props :
  NoDup (obj_keys props) ->
  isValid (VObject props) = existsb (fun kv => isValid (snd kv)) props.
Proof. intros Hnd. simp isValid. now apply existsb_keys. Qed.

Lemma fold_left_push {A B} (p : B -> bool) (f : A -> B) l init :
  fold_left (fun acc x => if p (f x) then acc ++ [f x] else acc) l init
  = init ++ filter p (map f l).
Proof.
  revert init. induction l as [|x l IH]; intros; simpl.
  - now rewrite app_nil_r.
  - rewrite IH. destruct (p (f x)); [|reflexivity].
    now rewrite <- app_assoc.
Qed.

Lemma sanitize_array items :
  sanitize (VArray items) = VArray (filter isValid (map sanitize items)).
Proof.
  simp sanitize. f_equal. cbv zeta.
  rewrite (fold_left_indices
             (fun acc v => if isValid (sanitize v) then acc ++ [sanitize v] else acc)).
  apply (fold_left_push isValid sanitize).
Qed.

Lemma obj_keys_sanitized_incl props k :
  In k (obj_keys (sanitized_entries props)) -> In k (obj_keys props).
Proof.
  unfold obj_keys, sanitized_entries. rewrite !in_map_iff.
  intros [[k' v'] [Hk Hin]]. simpl in Hk. subst k'.
  apply filter_In in Hin as [Hin _]. apply in_map_iff in Hin as [[k0 v0] [Heq Hin]].
  inversion Heq; subst. now exists (k, v0).
Qed.

Lemma NoDup_keys_sanitized props :
  NoDup (obj_keys props) -> NoDup (obj_keys (sanitized_entries props)).
Proof.
  unfold obj_keys, sanitized_entries.
  induction props as [|[k v] props IH]; simpl; intros Hnd; [constructor|].
  inversion Hnd as [|? ? Hn Hd]; subst.
  destruct (isValid (sanitize v)); simpl; [|now apply IH].
  constructor; [|now apply IH].
  intros Hin. apply Hn. now apply (obj_keys_sanitized_incl props k).
Qed.

Lemma sanitize_fold_cons f k v l init :
  sanitize_fold f ((k, v) :: l) init
  = sanitize_fold f l (if isValid (f v) then obj_set init k (f v) else init).
Proof. reflexivity. Qed.

(** What the loop leaves in [result]: what was there, and the valid
    sanitized value of every key but [__proto__]. *)
Lemma sanitize_fold_entries f l init e :
  NoDup (obj_keys l) ->
  (forall k, In k (obj_keys l) -> ~ In k (obj_keys init)) ->
  In e (sanitize_fold f l init)
  <-> In e init
      \/ (fst e <> "__proto__"
          /\ exists v, In (fst e, v) l /\ snd e = f v /\ isValid (f v) = true).
Proof.
  revert init. induction l as [|[k v] l IH]; intros init Hnd Hfresh.
  - simpl. split; [now left|]. intros [H|(_ & v & [] & _)]. assumption.
  - inversion Hnd as [|? ? Hk Hnd']; subst. rewrite sanitize_fold_cons.
    assert (Hk0 : ~ In k (obj_keys init)) by (apply Hfresh; now left).
    destruct (isValid (f v)) eqn:V.
    + rewrite IH; [|assumption|].
      * destruct (String.eqb_spec k "__proto__") as [->|Hne].
        -- rewrite obj_set_proto by assumption. split.
           ++ intros [H|(Hp & w & Hin & Hw)]; [now left|].
              right. split; [assumption|]. exists w. split; [now right|assumption].
           ++ intros [H|(Hp & w & [E|Hin] & Hw)]; [now left| |].
              ** inversion E; subst. congruence.
              ** right. split; [assumption|]. now exists w.
        -- rewrite obj_set_entries by assumption. split.
           ++ intros [[->|H]|(Hp & w & Hin & Hw)].
              ** right. simpl. split; [assumption|]. exists v. now split; [left|].
              ** now left.
              ** right. split; [assumption|]. exists w. split; [now right|assumption].
           ++ intros [H|(Hp & w & [E|Hin] & Hw & Hv)].
              ** left. now right.
              ** inversion E; subst. left. left. destruct e; simpl in *. now subst.
              ** right. split; [assumption|]. now exists w.
      * intros k' Hin Hin'. apply obj_keys_obj_set in Hin' as [[-> _]|Hin'].
        -- contradiction.
        -- apply (Hfresh k'); [now right|assumption].
    + rewrite IH; [|assumption|intros k' Hin; apply Hfresh; now right]. split.
      * intros [H|(Hp & w & Hin & Hw)]; [now left|].
        right. split; [assumption|]. exists w. split; [now right|assumption].
      * intros [H|(Hp & w & [E|Hin] & Hw & Hv)]; [now left| |].
        -- inversion E; subst. congruence.
        -- right. split; [assumption|]. now exists w.
Qed.

Lemma sanitize_fold_NoDup f l init :
  NoDup (obj_keys init) -> NoDup (obj_keys (sanitize_fold f l init)).
Proof.
  revert init. induction l as [|[k v] l IH]; intros init H; [assumption|].
  rewrite sanitize_fold_cons. apply IH.
  destruct (isValid (f v)); [now apply NoDup_obj_set|assumption].
Qed.

Lemma sanitize_fold_key_order f l init :
  key_order (obj_keys init) = true ->
  key_order (obj_keys (sanitize_fold f l init)) = true.
Proof.
  revert init. induction l as [|[k v] l IH]; intros init H; [assumption|].
  rewrite sanitize_fold_cons. apply IH.
  destruct (isValid (f v)); [now apply key_order_obj_set|assumption].
Qed.

Lemma sanitize_fold_no_proto f l init :
  ~ In "__proto__" (obj_keys init) ->
  ~ In "__proto__" (obj_keys (sanitize_fold f l init)).
Proof.
  revert init. induction l as [|[k v] l IH]; intros init H; [assumption|].
  rewrite sanitize_fold_cons. apply IH.
  destruct (isValid (f v)); [|assumption].
  intros Hin. apply obj_keys_obj_set in Hin as [[E Hne]|Hin]; [congruence|now apply H].
Qed.

(** When the keys are in order and none is [__proto__], every assignment
    of the loop adds its key last. *)
Lemma fold_left_assign (f : Value -> Value) l init :
  NoDup (obj_keys init ++ obj_keys l) ->
  ~ In "__proto__" (obj_keys l) ->
  key_order (obj_keys init ++ obj_keys l) = true ->
  sanitize_fold f l init
  = init ++ filter (fun kv => isValid (snd kv)) (map (fun kv => (fst kv, f (snd kv))) l).
Proof.
  revert init. induction l as [|[k v] l IH]; intros init Hnd Hproto Hord.
  - simpl. now rewrite app_nil_r.
  - rewrite sanitize_fold_cons. simpl in *.
    assert (Hfresh : ~ In k (obj_keys init)).
    { apply NoDup_remove_2 in Hnd. intros Hin. apply Hnd.
      apply in_or_app. now left. }
    destruct (isValid (f v)).
    + rewrite obj_set_append; try assumption.
      * rewrite IH.
        -- now rewrite <- app_assoc.
        -- unfold obj_keys in *. rewrite map_app, <- app_assoc. exact Hnd.
        -- intros H. apply Hproto. now right.
        -- unfold obj_keys in *. rewrite map_app, <- app_assoc. exact Hord.
      * intros E. apply Hproto. now left.
      * change (k :: obj_keys l) with ([k] ++ obj_keys l) in Hord.
        rewrite app_assoc in Hord. now apply key_order_app in Hord as [H _].
    + apply IH.
      * now apply NoDup_remove_1 in Hnd.
      * intros H. apply Hproto. now right.
      * now apply key_order_remove in Hord.
Qed.

Lemma sanitize_object_fold props :
  NoDup (obj_keys props) ->
  sanitize (VObject props) = VObject (sanitize_fold sanitize props []).
Proof.
  intros Hnd. simp sanitize. f_equal. cbv zeta.
  apply (fold_left_keys
           (fun result k v =>
              if isValid (sanitize v) then obj_set result k (sanitize v) else result)
           props [] Hnd).
Qed.

(** The record [sanitize] builds from a record whose keys are in order and
    none of which is [__proto__]. *)
Lemma sanitize_object props :
  NoDup (obj_keys props) ->
  ~ In "__proto__" (obj_keys props) ->
  key_order (obj_keys props) = true ->
  sanitize (VObject props) = VObject (sanitized_entries props).
Proof.
  intros Hnd Hproto Hord. rewrite sanitize_object_fold by assumption. f_equal.
  now apply (fold_left_assign sanitize props []).
Qed.

(** The entries of a sanitized record, whatever the keys. *)
Lemma sanitized_record_entries props k w :
  NoDup (obj_keys props) ->
  In (k, w) (sanitize_fold sanitize props [])
  <-> k <> "__proto__"
      /\ exists v, In (k, v) props /\ w = sanitize v /\ isValid (sanitize v) = true.
Proof.
  intros Hnd. rewrite sanitize_fold_entries; [|assumption|intros k' _ []].
  simpl. split; [intros [[]|H]; exact H|intros H; now right].
Qed.

Lemma existsb_filter {A} (p : A -> bool) l : existsb p (filter p l) = existsb p l.
Proof.
  induction l as [|x l IH]; simpl; [reflexivity|].
  destruct (p x) eqn:E; simpl; now rewrite ?E, IH.
Qed.

Lemma existsb_ext_Forall {A} (f g : A -> bool) l :
  Forall (fun x => f x = g x) l -> existsb f l = existsb g l.
Proof.
  induction 1 as [|x l Hx _ IH]; simpl; [reflexivity|]. now rewrite Hx, IH.
Qed.

Lemma well_formed_array items :
  well_formed (VArray items) = true -> Forall (fun v => well_formed v = true) items.
Proof. simpl. intros H. apply Forall_forall. now apply forallb_forall. Qed.

Lemma well_formed_object props :
  well_formed (VObject props) = true ->
  NoDup (obj_keys props) /\ Forall (fun kv => well_formed (snd kv) = true) props.
Proof.
  simpl. rewrite andb_true_iff. intros [Hnd Hall]. split.
  - now apply nodupb_NoDup.
  - apply Forall_forall. now apply forallb_forall.
Qed.

Lemma existsb_map_compose {A B} (f : B -> bool) (g : A -> B) l :
  existsb f (map g l) = existsb (fun x => f (g x)) l.
Proof. induction l as [|x l IH]; simpl; [reflexivity|]. now rewrite IH. Qed.

Lemma filter_idempotent {A} (p : A -> bool) l : filter p (filter p l) = filter p l.
Proof.
  induction l as [|x l IH]; simpl; [reflexivity|].
  destruct (p x) eqn:E; simpl; now rewrite ?E, IH.
Qed.

Lemma filter_map_fixed {A} (p : A -> bool) (g : A -> A) l :
  (forall y, In y l -> g y = y) -> filter p (map g (filter p l)) = filter p l.
Proof.
  intros Hfix.
  replace (map g (filter p l)) with (filter p l).
  - apply filter_idempotent.
  - rewrite <- (map_id (filter p l)) at 1. apply map_ext_in.
    intros y Hy. symmetry. apply Hfix. now apply filter_In in Hy as [Hy _].
Qed.

(** ** Validity of containers (claim C3) *)

Lemma isValid_object_iff props :
  NoDup (obj_keys props) ->
  isValid (VObject props) = true
  <-> exists k v, In (k, v) props /\ isValid v = true.
Proof.
  intros Hnd. rewrite isValid_object by assumption. rewrite existsb_exists. split.
  - intros [[k v] [Hin Hv]]. now exists k, v.
  - intros (k & v & Hin & Hv). now exists (k, v).
Qed.

(** C3. A sequence is valid exactly when one of its elements is valid, a
    record exactly when one of its values is valid (the keys play no part);
    so the empty sequence, the empty record and a record all of whose values
    are invalid are invalid. *)
Theorem isValid_containers (items : list Value) (props : object)
    (Hkeys : nodupb (obj_keys props) = true) :
  (isValid (VArray items) = true <-> exists v, In v items /\ isValid v = true)
  /\ (isValid (VObject props) = true
      <-> exists k v, In (k, v) props /\ isValid v = true)
  /\ isValid (VArray []) = false
  /\ isValid (VObject []) = false
  /\ ((forall k v, In (k, v) props -> isValid v = false) ->
      isValid (VObject props) = false).
Proof.
  apply nodupb_NoDup in Hkeys.
  split; [|split; [|split; [|split]]].
  - rewrite isValid_array. apply existsb_exists.
  - now apply isValid_object_iff.
  - reflexivity.
  - reflexivity.
  - intros Hall. apply not_true_iff_false. intros Hv.
    apply isValid_object_iff in Hv as (k & v & Hin & Hv); [|assumption].
    rewrite (Hall k v Hin) in Hv. discriminate.
Qed.

Lemma isValid_containers_witness :
  let items := [VString " "; num 0] in
  let props := [("code", VString ""); ("name", VString "")] in
  (isValid (VArray items) = true <-> exists v, In v items /\ isValid v = true)
  /\ (isValid (VObject props) = true
      <-> exists k v, In (k, v) props /\ isValid v = true)
  /\ isValid (VArray []) = false
  /\ isValid (VObject []) = false
  /\ ((forall k v, In (k, v) props -> isValid v = false) ->
      isValid (VObject props) = false).
Proof.
  exact (isValid_containers
           [VString " "; num 0]
           [("code", VString ""); ("name", VString "")] eq_refl).
Defined.

(** ** What [sanitize] keeps (claim C1) *)

Lemma sanitized_key_iff props k :
  NoDup (obj_keys props) ->
  In k (obj_keys (sanitized_entries props))
  <-> In k (obj_keys props) /\ isValid (sanitize (obj_get props k)) = true.
Proof.
  intros Hnd. unfold obj_keys at 1. unfold sanitized_entries.
  rewrite in_map_iff. split.
  - intros [[k' v'] [Hk Hin]]. simpl in Hk. subst k'.
    apply filter_In in Hin as [Hin Hv]. simpl in Hv.
    apply in_map_iff in Hin as [[k0 v0] [Heq Hin]]. simpl in Heq.
    inversion Heq; subst.
    rewrite (obj_get_In props k v0 Hnd Hin). split; [|assumption].
    change (In (fst (k, v0)) (map fst props)). now apply in_map.
  - intros [Hin Hv]. exists (k, sanitize (obj_get props k)). split; [reflexivity|].
    apply filter_In. split; [|assumption].
    apply in_map_iff. exists (k, obj_get props k). split; [reflexivity|].
    now apply obj_get_own_In.
Qed.

Lemma sanitized_value props k :
  NoDup (obj_keys props) ->
  In k (obj_keys (sanitized_entries props)) ->
  obj_get (sanitized_entries props) k = sanitize (obj_get props k).
Proof.
  intros Hnd Hin. apply obj_get_In; [now apply NoDup_keys_sanitized|].
  apply sanitized_key_iff in Hin as [Hin Hv]; [|assumption].
  unfold sanitized_entries. apply filter_In. split; [|assumption].
  apply in_map_iff. exists (k, obj_get props k). split; [reflexivity|].
  now apply obj_get_own_In.
Qed.

Lemma keys_satisfy_array p items :
  keys_satisfy p (VArray items) = true ->
  Forall (fun v => keys_satisfy p v = true) items.
Proof. simpl. intros H. apply Forall_forall. now apply forallb_forall. Qed.

Lemma keys_satisfy_object p props :
  keys_satisfy p (VObject props) = true ->
  p (obj_keys props) = true
  /\ Forall (fun kv => keys_satisfy p (snd kv) = true) props.
Proof.
  simpl. rewrite andb_true_iff. intros [Hp Hall]. split; [assumption|].
  apply Forall_forall. now apply forallb_forall.
Qed.

Lemma no_proto_key_object props :
  no_proto_key (VObject props) = true ->
  ~ In "__proto__" (obj_keys props)
  /\ Forall (fun kv => no_proto_key (snd kv) = true) props.
Proof.
  intros H. apply keys_satisfy_object in H as [Hp Hall]. split; [|assumption].
  intros Hin. apply has_own_true in Hin. unfold has_own in Hin.
  rewrite Hin in Hp. discriminate.
Qed.

Lemma sanitized_record_key props k :
  NoDup (obj_keys props) ->
  In k (obj_keys (sanitize_fold sanitize props []))
  <-> k <> "__proto__"
      /\ In k (obj_keys props)
      /\ isValid (sanitize (obj_get props k)) = true.
Proof.
  intros Hnd. unfold obj_keys at 1. rewrite in_map_iff. split.
  - intros [[k' w] [Hk Hin]]. simpl in Hk. subst k'.
    apply sanitized_record_entries in Hin as (Hp & v & Hin & _ & Hv);
      [|assumption].
    rewrite (obj_get_In props k v Hnd Hin). repeat split; try assumption.
    change (In (fst (k, v)) (map fst props)). now apply in_map.
  - intros (Hp & Hin & Hv). exists (k, sanitize (obj_get props k)).
    split; [reflexivity|]. apply sanitized_record_entries; [assumption|].
    split; [assumption|]. exists (obj_get props k).
    split; [now apply obj_get_own_In|now split].
Qed.

Lemma sanitized_record_value props k :
  NoDup (obj_keys props) ->
  In k (obj_keys (sanitize_fold sanitize props [])) ->
  obj_get (sanitize_fold sanitize props []) k = sanitize (obj_get props k).
Proof.
  intros Hnd Hin. apply obj_get_In; [apply sanitize_fold_NoDup; constructor|].
  apply sanitized_record_key in Hin as (Hp & Hin & Hv); [|assumption].
  apply sanitized_record_entries; [assumption|]. split; [assumption|].
  exists (obj_get props k). split; [now apply obj_get_own_In|now split].
Qed.

(** C1. [sanitize] does not keep every key whose sanitized value is valid:
    the record read from [{"__proto__": 5, "a": 1}] has the own key
    [__proto__], the sanitized value under it is valid, and the result is
    [{a: 1}]. The assignment [result[k] = _v] on the fresh [result] reaches
    the [__proto__] setter it inherits and stores no property. *)
Theorem sanitize_drops_proto_key :
  let props := [("__proto__", num 5); ("a", num 1)] in
  In "__proto__" (obj_keys props)
  /\ isValid (sanitize (obj_get props "__proto__")) = true
  /\ sanitize (VObject props) = VObject [("a", num 1)].
Proof. split; [now left|split; reflexivity]. Qed.

(** X20. Sanitizing a sequence gives, in input order, the sanitized elements
    that pass [isValid] (the others are left out, so the result may be
    shorter); sanitizing a record keeps a key exactly when it is not
    [__proto__] and the sanitized value under it passes [isValid], and
    stores that sanitized value; when no key is [__proto__] and the keys
    are in the order of [Object.keys], the kept entries are in input
    order. *)
Theorem sanitize_containers (items : list Value) (props : object)
    (Hkeys : nodupb (obj_keys props) = true) :
  (sanitize (VArray items) = VArray (filter isValid (map sanitize items))
   /\ length (filter isValid (map sanitize items)) <= length items)
  /\ exists result,
       sanitize (VObject props) = VObject result
       /\ (forall k,
             In k (obj_keys result)
             <-> k <> "__proto__"
                 /\ In k (obj_keys props)
                 /\ isValid (sanitize (obj_get props k)) = true)
       /\ (forall k,
             In k (obj_keys result) ->
             obj_get result k = sanitize (obj_get props k))
       /\ (has_own props "__proto__" = false ->
           key_order (obj_keys props) = true ->
           result
           = filter (fun kv => isValid (snd kv))
               (map (fun kv => (fst kv, sanitize (snd kv))) props)).
Proof.
  apply nodupb_NoDup in Hkeys. split; [split|].
  - apply sanitize_array.
  - etransitivity; [apply filter_length_le|]. now rewrite length_map.
  - exists (sanitize_fold sanitize props []). split; [|split; [|split]].
    + now apply sanitize_object_fold.
    + intros k. now apply sanitized_record_key.
    + intros k. now apply sanitized_record_value.
    + intros Hproto Hord. apply (fold_left_assign sanitize props []);
        try assumption.
      intros Hin. apply has_own_true in Hin. congruence.
Qed.

Lemma sanitize_containers_witness :
  let items := [VString "helloo  "; VString " "; VNull; VString "world"] in
  let props := [("name", VString "  x  "); ("info", VObject []); ("list", VArray [])] in
  (sanitize (VArray items) = VArray (filter isValid (map sanitize items))
   /\ length (filter isValid (map sanitize items)) <= length items)
  /\ exists result,
       sanitize (VObject props) = VObject result
       /\ (forall k,
             In k (obj_keys result)
             <-> k <> "__proto__"
                 /\ In k (obj_keys props)
                 /\ isValid (sanitize (obj_get props k)) = true)
       /\ (forall k,
             In k (obj_keys result) ->
             obj_get result k = sanitize (obj_get props k))
       /\ (has_own props "__proto__" = false ->
           key_order (obj_keys props) = true ->
           result
           = filter (fun kv => isValid (snd kv))
               (map (fun kv => (fst kv, sanitize (snd kv))) props)).
Proof.
  exact (sanitize_containers
           [VString "helloo  "; VString " "; VNull; VString "world"]
           [("name", VString "  x  "); ("info", VObject []); ("list", VArray [])]
           eq_refl).
Defined.

(** ** Sanitizing and validity (claims C6 and C7) *)

(** C7. Sanitizing can change whether a value is valid: the record read
    from [{"__proto__": {"a": 1}}] is valid, and its sanitized form has no
    key, so it is not. *)
Theorem isValid_sanitize_proto_key :
  let t := VObject [("__proto__", VObject [("a", num 1)])] in
  well_formed t = true
  /\ isValid t = true
  /\ sanitize t = VObject []
  /\ isValid (sanitize t) = false.
Proof. repeat split. Qed.

(** X21. Sanitizing never makes an invalid value valid, and on a value none
    of whose records has a key [__proto__] it does not change validity. *)
Theorem isValid_sanitize (t : Value) (Hwf : well_formed t = true) :
  (isValid (sanitize t) = true -> isValid t = true)
  /\ (no_proto_key t = true -> isValid (sanitize t) = isValid t).
Proof.
  revert Hwf.
  induction t as [| | | | |s| |items IH|props IH] using value_rect'; intros Hwf;
    try (split; intros; reflexivity || assumption).
  - simp sanitize isValid. rewrite TrimFacts.trim_idempotent. now split.
  - apply well_formed_array in Hwf. rewrite Forall_forall in IH, Hwf.
    rewrite sanitize_array, !isValid_array, existsb_filter, existsb_map_compose.
    split.
    + rewrite !existsb_exists. intros (v & Hin & Hv). exists v.
      split; [assumption|]. now apply (IH v Hin (Hwf v Hin)).
    + intros Hp. apply keys_satisfy_array in Hp. rewrite Forall_forall in Hp.
      apply existsb_ext_Forall. apply Forall_forall. intros v Hin.
      destruct (IH v Hin (Hwf v Hin)) as [_ H]. apply (H (Hp v Hin)).
  - apply well_formed_object in Hwf as [Hnd Hwf]. rewrite Forall_forall in IH, Hwf.
    rewrite sanitize_object_fold by assumption.
    rewrite isValid_object by (apply sanitize_fold_NoDup; constructor).
    rewrite isValid_object by assumption.
    assert (Hdown : existsb (fun kv => isValid (snd kv))
                      (sanitize_fold sanitize props []) = true ->
                    existsb (fun kv => isValid (snd kv)) props = true).
    { rewrite !existsb_exists. intros ([k w] & Hin & Hv).
      apply sanitized_record_entries in Hin as (_ & v & Hin & _ & Hv');
        [|assumption].
      exists (k, v). split; [assumption|].
      now apply (IH (k, v) Hin (Hwf (k, v) Hin)). }
    split; [exact Hdown|].
    intros Hp. apply no_proto_key_object in Hp as [Hproto Hp].
    rewrite Forall_forall in Hp.
    apply eq_iff_eq_true. split; [exact Hdown|].
    rewrite !existsb_exists. intros ([k v] & Hin & Hv). simpl in Hv.
    destruct (IH (k, v) Hin (Hwf (k, v) Hin)) as [_ H].
    specialize (H (Hp (k, v) Hin)). simpl in H.
    exists (k, sanitize v). split; [|simpl; congruence].
    apply sanitized_record_entries; [assumption|]. split.
    + intros ->. apply Hproto.
      change (In (fst ("__proto__", v)) (map fst props)). now apply in_map.
    + exists v. split; [assumption|]. split; [reflexivity|congruence].
Qed.

Lemma isValid_sanitize_witness :
  let t := VObject [("name", VString "  x  "); ("list", VArray [VNull; VString " "])] in
  (isValid (sanitize t) = true -> isValid t = true)
  /\ (no_proto_key t = true -> isValid (sanitize t) = isValid t).
Proof.
  exact (isValid_sanitize
           (VObject [("name", VString "  x  "); ("list", VArray [VNull; VString " "])])
           eq_refl).
Defined.

Lemma filter_map_all {A} (p : A -> bool) (g : A -> A) l :
  (forall y, In y l -> g y = y /\ p y = true) -> filter p (map g l) = l.
Proof.
  induction l as [|x l IH]; simpl; intros H; [reflexivity|].
  destruct (H x (or_introl eq_refl)) as [Hg Hp]. rewrite Hg, Hp. f_equal.
  apply IH. intros y Hy. apply H. now right.
Qed.

(** C6. On a value whose sanitized form is valid, sanitizing twice gives the
    same tree as sanitizing once. *)
Theorem sanitize_idempotent (t : Value)
    (Hwf : well_formed t = true) (Hvalid : isValid (sanitize t) = true) :
  sanitize (sanitize t) = sanitize t.
Proof.
  clear Hvalid. revert Hwf.
  induction t as [| | | | |s| |items IH|props IH] using value_rect'; intros Hwf;
    try reflexivity.
  - simp sanitize. now rewrite TrimFacts.trim_idempotent.
  - apply well_formed_array in Hwf.
    rewrite sanitize_array, sanitize_array. f_equal.
    apply filter_map_fixed. intros y Hy.
    apply in_map_iff in Hy as [x [<- Hx]].
    rewrite Forall_forall in *. apply IH; auto.
  - apply well_formed_object in Hwf as [Hnd Hwf]. rewrite Forall_forall in IH, Hwf.
    rewrite sanitize_object_fold by assumption.
    rewrite sanitize_object.
    + f_equal. unfold sanitized_entries.
      apply (filter_map_all (fun kv : string * Value => isValid (snd kv))
               (fun kv => (fst kv, sanitize (snd kv)))).
      intros [k w] Hy.
      apply sanitized_record_entries in Hy as (_ & v & Hin & -> & Hv);
        [|assumption].
      cbn [fst snd]. pose proof (IH (k, v) Hin (Hwf (k, v) Hin)) as E.
      cbn [snd] in E. rewrite E. now split.
    + apply sanitize_fold_NoDup. constructor.
    + apply sanitize_fold_no_proto. intros [].
    + now apply sanitize_fold_key_order.
Qed.

Lemma sanitize_idempotent_witness :
  let t := VObject [("name", VString "  x  "); ("info", VObject []);
                    ("list", VArray [VNull; VString " a "])] in
  sanitize (sanitize t) = sanitize t.
Proof.
  exact (sanitize_idempotent
           (VObject [("name", VString "  x  "); ("info", VObject []);
                     ("list", VArray [VNull; VString " a "])])
           eq_refl eq_refl).
Defined.

(** ** Splitting *)

Module SplitFacts.
Import JsString.

Lemma append_empty_r s : (s ++ "")%string = s.
Proof. induction s as [|c s IH]; simpl; [reflexivity|]. now rewrite IH. Qed.

Lemma append_assoc s1 s2 s3 :
  ((s1 ++ s2) ++ s3)%string = (s1 ++ (s2 ++ s3))%string.
Proof. induction s1 as [|c s1 IH]; simpl; [reflexivity|]. now rewrite IH. Qed.

Lemma substring_all s : String.substring 0 (String.length s) s = s.
Proof. induction s as [|c s IH]; simpl; [reflexivity|]. now rewrite IH. Qed.

Lemma prefix_drop sep s :
  String.prefix sep s = true -> s = (sep ++ drop (String.length sep) s)%string.
Proof.
  revert s. induction sep as [|a sep IH]; intros s H; simpl.
  - now destruct s.
  - destruct s as [|b s]; simpl in H; [discriminate|].
    destruct (ascii_dec a b) as [->|]; [|discriminate].
    simpl. f_equal. now apply IH.
Qed.

Lemma split_loop_nonempty sep s segment :
  exists first others, split_loop sep s segment = first :: others.
Proof.
  funelim (split_loop sep s segment); eauto.
Qed.

(** Joining the segments with the separator gives the string back: the
    separator is matched as a literal substring and nothing else is lost. *)
Lemma split_loop_join sep s segment :
  sep <> EmptyString ->
  String.concat sep (split_loop sep s segment) = (segment ++ s)%string.
Proof.
  intros Hsep. funelim (split_loop sep s segment).
  - simpl. now rewrite append_empty_r.
  - simpl.
    destruct (split_loop_nonempty separator
                (drop (Nat.pred (String.length separator)) rest) EmptyString)
      as (first & others & E).
    rewrite E. rewrite <- E. rewrite H by assumption. simpl.
    f_equal. destruct separator as [|a sep']; [contradiction|].
    apply prefix_drop in Heq. simpl in Heq. simpl. now rewrite <- Heq.
  - rewrite H by assumption. now rewrite append_assoc.
Qed.

Lemma split_join s sep :
  sep <> EmptyString -> join (split s sep) sep = s.
Proof.
  intros Hsep. unfold join, split. destruct sep as [|a sep']; [contradiction|].
  now rewrite split_loop_join.
Qed.

Lemma split_loop_absent c s segment :
  has_char c s = false ->
  split_loop (String c EmptyString) s segment = [(segment ++ s)%string].
Proof.
  revert segment. induction s as [|c' s IH]; intros segment H; simp split_loop.
  - now rewrite append_empty_r.
  - simpl in H. apply orb_false_iff in H as [Hc Hs].
    simpl. destruct (ascii_dec c c') as [->|Hne].
    + now rewrite Ascii.eqb_refl in Hc.
    + simpl. rewrite IH by assumption. now rewrite append_assoc.
Qed.

(** A string without the separator character is its own only segment. *)
Lemma split_absent c s :
  has_char c s = false -> split s (String c EmptyString) = [s].
Proof. intros H. unfold split. now rewrite split_loop_absent. Qed.

Lemma has_char_append c s1 s2 :
  has_char c (s1 ++ s2)%string = has_char c s1 || has_char c s2.
Proof.
  induction s1 as [|a s1 IH]; simpl; [reflexivity|]. now rewrite IH, orb_assoc.
Qed.

Lemma has_char_drop c n s : has_char c (drop n s) = true -> has_char c s = true.
Proof.
  revert s. induction n as [|n IH]; intros [|a s]; simpl; trivial.
  intros H. rewrite (IH s H). apply orb_true_r.
Qed.

Lemma has_char_substring c n m s :
  has_char c (String.substring n m s) = true -> has_char c s = true.
Proof.
  revert n m. induction s as [|a s IH]; intros [|n] [|m]; simpl; trivial;
    try discriminate.
  - rewrite !orb_true_iff. intros [H|H]; [now left|right; now apply (IH 0 m)].
  - intros H. rewrite (IH n 0 H). apply orb_true_r.
  - intros H. rewrite (IH n (S m) H). apply orb_true_r.
Qed.

Lemma has_char_concat c sep pieces :
  has_char c (String.concat sep pieces) = true ->
  has_char c sep = true \/ exists piece, In piece pieces /\ has_char c piece = true.
Proof.
  induction pieces as [|x [|y pieces] IH]; simpl.
  - discriminate.
  - intros H. right. exists x. now split; [left|].
  - rewrite !has_char_append, !orb_true_iff. intros [H|[H|H]].
    + right. exists x. now split; [left|].
    + now left.
    + destruct (IH H) as [Hs|(piece & Hin & Hp)]; [now left|].
      right. exists piece. now split; [right|].
Qed.

(** A segment is made of characters of the string that was split. *)
Lemma split_loop_chars c sep s segment piece :
  In piece (split_loop sep s segment) -> has_char c piece = true ->
  has_char c segment = true \/ has_char c s = true.
Proof.
  revert c piece. funelim (split_loop sep s segment); intros ch piece; simpl In.
  - intros [<-|[]] Hp. now left.
  - intros [<-|Hin] Hp; [now left|]. right.
    destruct (H ch piece Hin Hp) as [Hs|Hs]; [discriminate Hs|].
    apply has_char_drop in Hs. simpl. rewrite Hs. apply orb_true_r.
  - intros Hin Hp. destruct (H ch piece Hin Hp) as [Hs|Hs].
    + rewrite has_char_append in Hs. simpl in Hs.
      rewrite orb_false_r in Hs. apply orb_true_iff in Hs as [Hs|Hs];
        [now left|right]. simpl. now rewrite Hs.
    + right. simpl. rewrite Hs. apply orb_true_r.
Qed.

Lemma split_chars c s sep piece :
  sep <> EmptyString ->
  In piece (split s sep) -> has_char c piece = true -> has_char c s = true.
Proof.
  intros Hsep Hin Hp. unfold split in Hin.
  destruct sep as [|a sep']; [contradiction|].
  destruct (split_loop_chars c _ _ _ _ Hin Hp) as [H|H]; [discriminate H|exact H].
Qed.

(** No segment holds the separator character. *)
Lemma split_loop_separator_free c s segment piece :
  has_char c segment = false ->
  In piece (split_loop (String c EmptyString) s segment) ->
  has_char c piece = false.
Proof.
  revert segment. induction s as [|c' s IH]; intros segment Hseg.
  - rewrite split_loop_equation_1. intros [<-|[]]. assumption.
  - rewrite split_loop_equation_2. cbn [prefix].
    destruct (ascii_dec c c') as [->|Hne].
    + replace (prefix "" s) with true by now destruct s.
      cbn [split_loop_unfold_clause_2 String.length Nat.pred drop].
      intros [<-|Hin]; [assumption|]. now apply (IH EmptyString).
    + cbn [split_loop_unfold_clause_2]. apply IH.
      rewrite has_char_append, Hseg. cbn [has_char].
      rewrite orb_false_r. apply Ascii.eqb_neq. congruence.
Qed.

Lemma split_separator_free c s piece :
  In piece (split s (String c EmptyString)) -> has_char c piece = false.
Proof. unfold split. now apply split_loop_separator_free. Qed.

End SplitFacts.

(** ** Title case (claim C4) and key renaming (claim C5) *)

Section CasingFacts.

Context {CM : CaseMapping}.

Lemma capitalize_title_piece v : capitalize v = title_piece v.
Proof.
  unfold capitalize, JsString.substring, JsString.substringFrom.
  destruct v as [|c rest]; simpl.
  - now rewrite toLocaleUpperCase_empty, toLocaleLowerCase_empty.
  - rewrite Nat.sub_0_r, SplitFacts.substring_all.
    now replace (String.substring 0 0 rest) with EmptyString by now destruct rest.
Qed.

(** C4. [toTitleCase(s, p)] is the segments of [s] split on the literal
    [p], each with its first character uppercased and its remainder
    lowercased (an empty segment giving an empty piece), joined with one
    space whatever [p] is.  The segments are those of a literal match:
    joined with [p] again they give [s] back, and for the empty [p] they are
    the code units of [s]. *)
Theorem toTitleCase_segments (s p : string) :
  toTitleCase (VString s) p
  = VString (JsString.join (map title_piece (JsString.split s p)) " ")
  /\ (p <> "" -> JsString.join (JsString.split s p) p = s)
  /\ (p = "" -> JsString.split s p = JsString.code_units s).
Proof.
  split; [|split].
  - simpl. unfold titleCase. do 2 f_equal.
    apply map_ext. apply capitalize_title_piece.
  - apply SplitFacts.split_join.
  - now intros ->.
Qed.

Lemma transformedKey_no_underscore key :
  JsString.has_char "_" key = false -> transformedKey key = toLocaleLowerCase key.
Proof.
  intros H. unfold transformedKey.
  rewrite (SplitFacts.split_absent "_" key H). simpl.
  apply SplitFacts.append_empty_r.
Qed.

Lemma obj_keys_fold_set (newKey : string -> string) (newValue : string -> Value)
    l init k' :
  In k'
    (obj_keys
       (fold_left (fun result key => obj_set result (newKey key) (newValue key))
          l init))
  <-> In k' (obj_keys init)
      \/ exists key, In key l /\ k' = newKey key /\ k' <> "__proto__".
Proof.
  revert init. induction l as [|key l IH]; intros init; simpl.
  - split; [now left|]. intros [H|(key & [] & _)]. assumption.
  - rewrite IH, obj_keys_obj_set. split.
    + intros [[[-> Hne]|H]|(key' & Hin & -> & Hne)].
      * right. exists key. now split; [left|].
      * now left.
      * right. exists key'. now split; [right|].
    + intros [H|(key' & [->|Hin] & -> & Hne)].
      * left. now right.
      * left. now left.
      * right. now exists key'.
Qed.

(** A new name has no underscore: the segments of the key have none, and
    the case conversions create none. *)
Lemma transformedKey_underscore_free key :
  JsString.has_char "_" (transformedKey key) = false.
Proof.
  apply not_true_iff_false. intros H. unfold transformedKey in H. cbv zeta in H.
  rewrite SplitFacts.has_char_append in H. apply orb_true_iff in H as [H|H].
  - apply toLocaleLowerCase_underscore in H.
    destruct (JsString.split key "_") as [|first others] eqn:E; cbn [hd] in H;
      [discriminate H|].
    assert (Hin : In first (JsString.split key "_")) by (rewrite E; now left).
    rewrite (SplitFacts.split_separator_free "_" key first Hin) in H. discriminate.
  - unfold JsString.join in H.
    apply SplitFacts.has_char_concat in H as [H|(piece & Hin & Hp)];
      [discriminate H|].
    apply in_map_iff in Hin as (k & <- & Hk).
    assert (Hk' : In k (JsString.split key "_")).
    { destruct (JsString.split key "_") as [|first others]; [destruct Hk|].
      now right. }
    pose proof (SplitFacts.split_separator_free "_" key k Hk') as Hfree.
    unfold titleCase, JsString.join in Hp.
    apply SplitFacts.has_char_concat in Hp as [Hp|(piece & Hin & Hp)];
      [discriminate Hp|].
    apply in_map_iff in Hin as (seg & <- & Hseg).
    assert (Hsub : JsString.has_char "_" seg = true -> False).
    { intros Hs.
      assert (Hsep : default_splitter <> EmptyString) by discriminate.
      pose proof (SplitFacts.split_chars "_" k default_splitter seg Hsep Hseg Hs).
      congruence. }
    unfold capitalize in Hp. rewrite SplitFacts.has_char_append in Hp.
    apply orb_true_iff in Hp as [Hp|Hp]; apply Hsub.
    + apply toLocaleUpperCase_underscore in Hp.
      now apply SplitFacts.has_char_substring in Hp.
    + apply toLocaleLowerCase_underscore in Hp.
      now apply SplitFacts.has_char_substring in Hp.
Qed.

Lemma has_char_proto k :
  JsString.has_char "_" k = false -> k <> "__proto__".
Proof. intros H ->. discriminate H. Qed.

(** So no key is renamed [__proto__]. *)
Lemma transformedKey_not_proto key : transformedKey key <> "__proto__".
Proof. apply has_char_proto, transformedKey_underscore_free. Qed.

Lemma toLocaleLowerCase_not_proto key :
  JsString.has_char "_" key = false -> toLocaleLowerCase key <> "__proto__".
Proof.
  intros H. apply has_char_proto. apply not_true_iff_false. intros Hc.
  apply toLocaleLowerCase_underscore in Hc. congruence.
Qed.

Lemma camelize_object input :
  camelize (VObject input)
  = VObject
      (fold_left
         (fun result key =>
            obj_set result (transformedKey key) (camelizeObject (obj_get input key)))
         (obj_keys input) []).
Proof. unfold camelize, camelizeObject. now simp camelizeWith. Qed.

(** C5, as the code has it. A key without underscore is renamed to the
    whole key lowercased (it is the first and only segment): that name is
    a key of the camelized record, and a one-key record becomes the record
    of that name. *)
Theorem camelize_key_no_underscore (input : object) (key : string)
    (Hown : In key (obj_keys input))
    (Hplain : JsString.has_char "_" key = false) :
  transformedKey key = toLocaleLowerCase key
  /\ (exists result,
        camelize (VObject input) = VObject result
        /\ In (toLocaleLowerCase key) (obj_keys result))
  /\ (forall v,
        camelize (VObject [(key, v)])
        = VObject [(toLocaleLowerCase key, camelizeObject v)]).
Proof.
  pose proof (transformedKey_no_underscore key Hplain) as Hkey.
  split; [assumption|split].
  - eexists. split; [apply camelize_object|].
    apply obj_keys_fold_set. right. exists key. split; [assumption|].
    split; [now symmetry|now apply toLocaleLowerCase_not_proto].
  - intros v. rewrite camelize_object. simpl.
    rewrite String.eqb_refl, Hkey. unfold obj_set. simpl.
    pose proof (toLocaleLowerCase_not_proto key Hplain) as Hne.
    apply String.eqb_neq in Hne. now rewrite Hne.
Qed.

End CasingFacts.

Lemma toTitleCase_segments_witness :
  toTitleCase (VString "barbie_girl") "_"
  = VString (JsString.join (map title_piece (JsString.split "barbie_girl" "_")) " ")
  /\ JsString.join (JsString.split "barbie_girl" "_") "_" = "barbie_girl".
Proof.
  destruct (toTitleCase_segments "barbie_girl" "_") as (Htitle & Hjoin & _).
  split; [exact Htitle|]. apply Hjoin. discriminate.
Defined.

Lemma camelize_key_no_underscore_witness :
  transformedKey "roles" = toLocaleLowerCase "roles"
  /\ (exists result,
        camelize (VObject [("person_name", VString "x"); ("roles", VArray [])])
        = VObject result
        /\ In (toLocaleLowerCase "roles") (obj_keys result))
  /\ (forall v,
        camelize (VObject [("roles", v)])
        = VObject [(toLocaleLowerCase "roles", camelizeObject v)]).
Proof.
  refine (camelize_key_no_underscore
            [("person_name", VString "x"); ("roles", VArray [])] "roles" _ eq_refl).
  simpl. right. left. reflexivity.
Defined.

(** C5, as the specification words it, fails: the key [aB] has no underscore
    and is renamed [ab], not [aB]. *)
Lemma camelize_key_not_first_letter_only :
  JsString.has_char "_" "aB" = false
  /\ lowercase_first_letter "aB" = "aB"
  /\ transformedKey "aB" = "ab"
  /\ camelize (VObject [("aB", VNull)]) = VObject [("ab", VNull)]
  /\ camelize (VObject [("aB", VNull)])
     <> VObject [(lowercase_first_letter "aB", VNull)].
Proof.
  repeat split; try reflexivity. intros H. discriminate H.
Qed.

(** ** The collection indexer (claims C9 and C10) *)

(** C10. When the collection is not an array or the key generator is not a
    function, [groupBy] and [normalize] both return the empty mapping, and
    return normally. *)
Theorem indexers_on_malformed_input
    (fn_call : nat -> Value -> option string) (value keyGenerator : Value)
    (Hbad : isArray value = false \/ typeof keyGenerator <> TFunction) :
  groupBy fn_call value keyGenerator = Some (VObject [])
  /\ normalize fn_call value keyGenerator = Some (VObject []).
Proof.
  destruct value; destruct keyGenerator; simpl; auto;
    destruct Hbad as [H|H]; solve [discriminate H | exfalso; now apply H].
Qed.

Lemma indexers_on_malformed_input_witness :
  groupBy (fun _ _ => None) VNull (VFunction 0) = Some (VObject [])
  /\ normalize (fun _ _ => None) VNull (VFunction 0) = Some (VObject []).
Proof.
  exact (indexers_on_malformed_input (fun _ _ => None) VNull (VFunction 0)
           (or_introl eq_refl)).
Defined.

(** C9 at [normalize([0, 5], _ => "k")]: the first element for the key [k]
    is [0], yet the result holds [5], because the slot is tested with
    [!accumulator[key]] and [0] is falsy. *)
Theorem normalize_falsy_first_is_overwritten :
  normalize (fun _ _ => Some "k") (VArray [num 0; num 5]) (VFunction 0)
  = Some (VObject [("k", num 5)]).
Proof. reflexivity. Qed.

(** ** Deep equality of records (claims C2 and C8) *)

(** C2 at [areEqual({x: undefined}, {y: undefined})]: the key [x] is not a
    key of the second record, yet the records compare equal under every
    flag combination. *)
Theorem areEqual_misses_undefined_key (trimWhiteSpace ignoreCase : bool) :
  areEqual (VObject [("x", VUndefined)]) (VObject [("y", VUndefined)])
    trimWhiteSpace ignoreCase = true
  /\ has_own [("y", VUndefined)] "x" = false.
Proof. split; reflexivity. Qed.

(** C8 at [a = {x: undefined}], [b = {z: 2}]: [areEqual(a, b)] is [true]
    and [areEqual(b, a)] is [false], under every flag combination. *)
Theorem areEqual_not_symmetric (trimWhiteSpace ignoreCase : bool) :
  areEqual (VObject [("x", VUndefined)]) (VObject [("z", num 2)])
    trimWhiteSpace ignoreCase = true
  /\ areEqual (VObject [("z", num 2)]) (VObject [("x", VUndefined)])
       trimWhiteSpace ignoreCase = false.
Proof. split; reflexivity. Qed.

(** ** Deep equality: what does hold *)




Section EqualityFacts.

Context {CM : CaseMapping}.




(** The record branch, read off the code: equal key counts, and every key
    of the first record reads recursively equal values on both sides. *)
Lemma areEqual_object_iff v1 v2 w c :
  areEqual (VObject v1) (VObject v2) w c = true
  <-> length (obj_keys v1) = length (obj_keys v2)
      /\ forall key, In key (obj_keys v1) ->
           areEqual (obj_get v1 key) (obj_read v2 key) w c = true.
Proof.
  simp areEqual. cbv zeta.
  now rewrite andb_true_iff, Nat.eqb_eq, forallb_forall.
Qed.


Lemma areEqual_array_iff a1 a2 w c :
  areEqual (VArray a1) (VArray a2) w c = true
  <-> length a1 = length a2
      /\ forall index, index < length a2 ->
           areEqual (array_get a2 index) (array_get a1 index) w c = true.
Proof.
  simp areEqual. rewrite andb_true_iff, Nat.eqb_eq, forallb_forall.
  unfold indices. split; intros [Hlen Hall]; (split; [assumption|]);
    intros i Hi; apply Hall.
  - apply in_seq. lia.
  - apply in_seq in Hi. lia.
Qed.

End EqualityFacts.






Section EqualitySymmetry.

Context {CM : CaseMapping}.
Variables trimWhiteSpace ignoreCase : bool.






End EqualitySymmetry.





(** ** [normalize]: what does hold *)

Section NormalizeFacts.

Variable fn_call : nat -> Value -> option string.
Variable f : nat.
Variable keyOf : Value -> string.


End NormalizeFacts.



(** ** Deep equality: reflexivity, flags and key order *)

Lemma SFeqb_refl x : x <> S754_nan -> SFeqb x x = true.
Proof.
  intros Hx. unfold SFeqb, SFcompare.
  destruct x as [sx|sx| |sx mx ex]; try destruct sx; try reflexivity;
    try contradiction.
  - rewrite Z.compare_refl.
    change (Pos.compare_cont Eq mx mx) with (Pos.compare mx mx).
    now rewrite Pos.compare_refl.
  - rewrite Z.compare_refl.
    change (Pos.compare_cont Eq mx mx) with (Pos.compare mx mx).
    now rewrite Pos.compare_refl.
Qed.

Section EqualityMore.

Context {CM : CaseMapping}.

(** Outside two strings, two arrays and two plain objects the flags are not
    looked at. *)
Lemma areEqual_flags_leaf a b w c w' c' :
  (forall s, a <> VString s) \/ (forall s, b <> VString s) ->
  (forall l, a <> VArray l) \/ (forall l, b <> VArray l) ->
  (forall o, a <> VObject o) \/ (forall o, b <> VObject o) ->
  areEqual a b w c = areEqual a b w' c'.
Proof.
  intros Hs Ha Ho.
  destruct a, b; simp areEqual; try reflexivity.
  - destruct Hs as [H|H]; now elim (H _ eq_refl).
  - destruct Ha as [H|H]; now elim (H _ eq_refl).
  - destruct Ho as [H|H]; now elim (H _ eq_refl).
Qed.

Lemma areEqual_string_exact s1 s2 w c :
  areEqual (VString s1) (VString s2) false false = true ->
  areEqual (VString s1) (VString s2) w c = true.
Proof.
  simp areEqual. cbv zeta. intros H. apply String.eqb_eq in H. subst s2.
  destruct c; apply String.eqb_refl.
Qed.

(** Against a member of [Object.prototype] the flags are not looked at. *)
Lemma areEqual_inherited_flags x k w c w' c' :
  areEqual x (inherited k) w c = areEqual x (inherited k) w' c'.
Proof.
  unfold inherited. destruct (String.eqb k "__proto__").
  - unfold Object_prototype. destruct x as [| | | | | | |items|[|kv o]];
      simp areEqual; reflexivity.
  - destruct (find _ _);
      apply areEqual_flags_leaf; right; discriminate.
Qed.

(** X4. [areEqual(t, t)] is [true] exactly when no number inside [t] is
    [NaN], whatever the flags. *)
Theorem areEqual_reflexive_iff_nan_free (t : Value)
    (trimWhiteSpace ignoreCase : bool) (Hwf : well_formed t = true) :
  areEqual t t trimWhiteSpace ignoreCase = nan_free t.
Proof.
  revert Hwf.
  induction t as [| |b|n|z|s|id|items IH|props IH] using value_rect';
    intros Hwf; try (simp areEqual; reflexivity).
  - simp areEqual. now destruct b.
  - simp areEqual. unfold areEqual_leaf. simpl.
    destruct n as [sn|sn| |sn mn en]; try reflexivity;
      apply SFeqb_refl; discriminate.
  - simp areEqual. unfold areEqual_leaf. simpl. apply Z.eqb_refl.
  - simp areEqual. cbv zeta. destruct ignoreCase; apply String.eqb_refl.
  - simp areEqual. unfold areEqual_leaf. simpl. apply Nat.eqb_refl.
  - apply well_formed_array in Hwf. rewrite Forall_forall in IH, Hwf.
    apply eq_true_iff_eq. rewrite areEqual_array_iff. simpl.
    rewrite forallb_forall. split.
    + intros [_ Hall] x Hx.
      destruct (In_nth items x VUndefined Hx) as (i & Hi & Hnth).
      rewrite <- (IH x Hx (Hwf x Hx)). rewrite <- Hnth. now apply Hall.
    + intros Hall. split; [reflexivity|]. intros i Hi.
      pose proof (nth_In items VUndefined Hi) as Hin.
      unfold array_get. rewrite (IH _ Hin (Hwf _ Hin)). now apply Hall.
  - apply well_formed_object in Hwf as [Hnd Hwf]. rewrite Forall_forall in IH, Hwf.
    apply eq_true_iff_eq. rewrite areEqual_object_iff. simpl.
    rewrite forallb_forall. split.
    + intros [_ Hall] [k v] Hin. simpl.
      pose proof (IH (k, v) Hin (Hwf (k, v) Hin)) as E. simpl in E.
      rewrite <- E.
      assert (Hk : In k (obj_keys props))
        by (change (In (fst (k, v)) (map fst props)); now apply in_map).
      specialize (Hall k Hk). rewrite (obj_read_own props k Hk) in Hall.
      now rewrite (obj_get_In props k v Hnd Hin) in Hall.
    + intros Hall. split; [reflexivity|]. intros k Hk.
      rewrite (obj_read_own props k Hk).
      pose proof (obj_get_own_In props k Hk) as Hin.
      pose proof (IH _ Hin (Hwf _ Hin)) as E. simpl in E.
      rewrite E. now apply (Hall _ Hin).
Qed.

(** X5. Two values that are equal with both flags off (no trimming, case
    respected) are equal under every other flag combination. *)
Theorem areEqual_exact_implies_any (a b : Value) (trimWhiteSpace ignoreCase : bool) :
  areEqual a b false false = true ->
  areEqual a b trimWhiteSpace ignoreCase = true.
Proof.
  enough (H : forall a b,
             (areEqual a b false false = true ->
              areEqual a b trimWhiteSpace ignoreCase = true)
             /\ (areEqual b a false false = true ->
                 areEqual b a trimWhiteSpace ignoreCase = true))
    by apply H.
  clear a b.
  assert (Hleaf : forall a b,
             (forall l, a <> VArray l) -> (forall o, a <> VObject o) ->
             (areEqual a b false false = true ->
              areEqual a b trimWhiteSpace ignoreCase = true)
             /\ (areEqual b a false false = true ->
                 areEqual b a trimWhiteSpace ignoreCase = true)).
  { intros a b Ha Ho.
    destruct a; try (now elim (Ha _ eq_refl)); try (now elim (Ho _ eq_refl));
      destruct b; try (split; apply areEqual_string_exact);
      split; intros H;
      (erewrite areEqual_flags_leaf; [exact H| | |]);
      ((left; discriminate) || (right; discriminate)). }
  induction a as [| |b0|n|z|s|id|items IH|props IH] using value_rect'; intros b;
    try (apply Hleaf; discriminate).
  - rewrite Forall_forall in IH.
    destruct b as [| | | | | | |items2|props2];
      try (split; intros H;
           (erewrite areEqual_flags_leaf; [exact H| | |]);
           ((left; discriminate) || (right; discriminate))).
    split; rewrite !areEqual_array_iff; intros [Hlen Hall];
      (split; [assumption|]); intros i Hi.
    + apply (IH (array_get items i)); [apply nth_In; lia|]. now apply Hall.
    + apply (IH (array_get items i)); [now apply nth_In|]. now apply Hall.
  - rewrite Forall_forall in IH.
    destruct b as [| | | | | | |items2|props2];
      try (split; intros H;
           (erewrite areEqual_flags_leaf; [exact H| | |]);
           ((left; discriminate) || (right; discriminate))).
    split; rewrite !areEqual_object_iff; intros [Hlen Hall];
      (split; [assumption|]); intros k Hk.
    + apply (IH (k, obj_get props k)); [now apply obj_get_own_In|].
      now apply Hall.
    + destruct (in_dec string_dec k (obj_keys props)) as [Hin|Hout].
      * rewrite (obj_read_own props k Hin).
        apply (IH (k, obj_get props k)); [now apply obj_get_own_In|].
        rewrite <- (obj_read_own props k Hin). now apply Hall.
      * specialize (Hall k Hk). unfold obj_read in *.
        rewrite (has_own_false props k Hout) in *.
        now rewrite (areEqual_inherited_flags _ k _ _ false false).
Qed.

End EqualityMore.

Lemma areEqual_reflexive_iff_nan_free_witness :
  areEqual (VObject [("a", VArray [num 1; VNumber S754_nan]); ("b", VNull)])
    (VObject [("a", VArray [num 1; VNumber S754_nan]); ("b", VNull)]) true true
  = nan_free (VObject [("a", VArray [num 1; VNumber S754_nan]); ("b", VNull)]).
Proof.
  exact (areEqual_reflexive_iff_nan_free
           (VObject [("a", VArray [num 1; VNumber S754_nan]); ("b", VNull)])
           true true eq_refl).
Defined.

Lemma areEqual_exact_implies_any_witness :
  areEqual (VObject [("code", VString "XXX"); ("tags", VArray [VString "a "])])
    (VObject [("tags", VArray [VString "a "]); ("code", VString "XXX")]) true true
  = true.
Proof.
  exact (areEqual_exact_implies_any
           (VObject [("code", VString "XXX"); ("tags", VArray [VString "a "])])
           (VObject [("tags", VArray [VString "a "]); ("code", VString "XXX")])
           true true eq_refl).
Defined.

Lemma obj_keys_Permutation (o o' : object) :
  Permutation o o' -> Permutation (obj_keys o) (obj_keys o').
Proof. apply Permutation_map. Qed.

(** Reading a key does not depend on the order in which the keys of a
    record were inserted. *)
Lemma obj_get_Permutation (o o' : object) k :
  NoDup (obj_keys o) -> Permutation o o' -> obj_get o k = obj_get o' k.
Proof.
  intros Hnd Hperm.
  pose proof (obj_keys_Permutation o o' Hperm) as Hkeys.
  destruct (in_dec string_dec k (obj_keys o)) as [Hin|Hout].
  - symmetry. apply obj_get_In.
    + now apply (Permutation_NoDup Hkeys).
    + apply (Permutation_in _ Hperm). now apply obj_get_own_In.
  - rewrite (obj_get_absent o k Hout). symmetry. apply obj_get_absent.
    intros Hin. apply Hout. apply (Permutation_in _ (Permutation_sym Hkeys) Hin).
Qed.

Lemma obj_read_Permutation (o o' : object) k :
  NoDup (obj_keys o) -> Permutation o o' -> obj_read o k = obj_read o' k.
Proof.
  intros Hnd Hperm. unfold obj_read.
  rewrite (obj_get_Permutation o o' k Hnd Hperm).
  pose proof (obj_keys_Permutation o o' Hperm) as Hkeys.
  destruct (has_own o k) eqn:E.
  - apply has_own_In in E. apply (Permutation_in _ Hkeys) in E.
    now rewrite (has_own_true o' k E).
  - destruct (has_own o' k) eqn:E'; [|reflexivity].
    apply has_own_In in E'. apply (Permutation_in _ (Permutation_sym Hkeys)) in E'.
    rewrite (has_own_true o k E') in E. discriminate.
Qed.

(** X6. Reordering the keys of a record changes no answer of [areEqual],
    whichever side the record is on. *)
Theorem areEqual_ignores_key_order {CM : CaseMapping} (v v' : object) (b : Value)
    (trimWhiteSpace ignoreCase : bool)
    (Hkeys : nodupb (obj_keys v) = true) (Hperm : Permutation v v') :
  areEqual (VObject v) b trimWhiteSpace ignoreCase
  = areEqual (VObject v') b trimWhiteSpace ignoreCase
  /\ areEqual b (VObject v) trimWhiteSpace ignoreCase
     = areEqual b (VObject v') trimWhiteSpace ignoreCase.
Proof.
  apply nodupb_NoDup in Hkeys.
  pose proof (obj_keys_Permutation v v' Hperm) as Hk.
  pose proof (Permutation_length Hk) as Hlen.
  destruct b as [| | | | | | |items2|props2];
    try (split; simp areEqual; reflexivity).
  split; apply eq_true_iff_eq; rewrite !areEqual_object_iff.
  - split; intros [Hl Hall]; (split; [congruence|]); intros k Hin.
    + rewrite <- (obj_get_Permutation v v' k Hkeys Hperm). apply Hall.
      apply (Permutation_in _ (Permutation_sym Hk) Hin).
    + rewrite (obj_get_Permutation v v' k Hkeys Hperm). apply Hall.
      apply (Permutation_in _ Hk Hin).
  - split; intros [Hl Hall]; (split; [congruence|]); intros k Hin.
    + rewrite <- (obj_read_Permutation v v' k Hkeys Hperm). now apply Hall.
    + rewrite (obj_read_Permutation v v' k Hkeys Hperm). now apply Hall.
Qed.

Lemma areEqual_ignores_key_order_witness :
  let v := [("code", VString "XXX"); ("name", VString "ping")] in
  let v' := [("name", VString "ping"); ("code", VString "XXX")] in
  let b := VObject [("name", VString "PING"); ("code", VString "xxx")] in
  areEqual (VObject v) b false true = areEqual (VObject v') b false true
  /\ areEqual b (VObject v) false true = areEqual b (VObject v') false true.
Proof.
  exact (areEqual_ignores_key_order
           [("code", VString "XXX"); ("name", VString "ping")]
           [("name", VString "ping"); ("code", VString "XXX")]
           (VObject [("name", VString "PING"); ("code", VString "xxx")])
           false true eq_refl (perm_swap _ _ [])).
Defined.

(** ** The sanitizer's output *)

Lemma filter_all {A} (p : A -> bool) l :
  (forall x, In x l -> p x = true) -> filter p l = l.
Proof.
  induction l as [|x l IH]; simpl; intros H; [reflexivity|].
  rewrite (H x (or_introl eq_refl)). f_equal. apply IH. intros y Hy.
  apply H. now right.
Qed.

(** X9. In the result of [sanitize] nothing is left to remove: every string
    is trimmed and every element and record value is valid, at any depth. *)
Theorem sanitize_is_clean (t : Value) (Hwf : well_formed t = true) :
  clean (sanitize t) = true.
Proof.
  revert Hwf.
  induction t as [| | | | |s| |items IH|props IH] using value_rect'; intros Hwf;
    try reflexivity.
  - simp sanitize. simpl. rewrite TrimFacts.trim_idempotent. apply String.eqb_refl.
  - apply well_formed_array in Hwf. rewrite Forall_forall in IH, Hwf.
    rewrite sanitize_array. simpl. apply forallb_forall. intros y Hy.
    apply filter_In in Hy as [Hy Hvalid]. rewrite Hvalid. simpl.
    apply in_map_iff in Hy as [x [<- Hx]]. now apply IH; [|apply Hwf].
  - apply well_formed_object in Hwf as [Hnd Hwf]. rewrite Forall_forall in IH, Hwf.
    rewrite sanitize_object_fold by assumption. simpl. apply forallb_forall.
    intros [k w] Hy.
    apply sanitized_record_entries in Hy as (_ & v & Hx & -> & Hvalid);
      [|assumption].
    cbn [snd]. rewrite Hvalid. simpl.
    apply (IH (k, v) Hx). apply (Hwf (k, v) Hx).
Qed.

Lemma sanitize_is_clean_witness :
  clean
    (sanitize
       (VObject [("name", VString "  x  "); ("info", VObject [("zip", VNull)]);
                 ("list", VArray [VString " "; VString " a"; VArray []])]))
  = true.
Proof.
  exact (sanitize_is_clean
           (VObject [("name", VString "  x  "); ("info", VObject [("zip", VNull)]);
                     ("list", VArray [VString " "; VString " a"; VArray []])])
           eq_refl).
Defined.

(** X10. A value with nothing to remove, none of whose records has a key
    [__proto__], and whose records list their keys as [Object.keys] does,
    is returned unchanged by [sanitize]. *)
Theorem sanitize_fixes_clean (t : Value)
    (Hwf : well_formed t = true) (Hproto : no_proto_key t = true)
    (Horder : in_key_order t = true) (Hclean : clean t = true) :
  sanitize t = t.
Proof.
  revert Hwf Hproto Horder Hclean.
  induction t as [| | | | |s| |items IH|props IH] using value_rect';
    intros Hwf Hproto Horder Hclean; try reflexivity.
  - simp sanitize. simpl in Hclean. apply String.eqb_eq in Hclean. now rewrite Hclean.
  - apply well_formed_array in Hwf. apply keys_satisfy_array in Hproto, Horder.
    rewrite Forall_forall in IH, Hwf, Hproto, Horder.
    simpl in Hclean. rewrite forallb_forall in Hclean.
    rewrite sanitize_array. f_equal.
    assert (Hmap : map sanitize items = items).
    { rewrite <- (map_id items) at 2. apply map_ext_in. intros x Hx.
      specialize (Hclean x Hx). apply andb_true_iff in Hclean as [_ Hc].
      apply IH; auto. }
    rewrite Hmap. apply filter_all. intros x Hx.
    specialize (Hclean x Hx). now apply andb_true_iff in Hclean as [Hv _].
  - apply well_formed_object in Hwf as [Hnd Hwf].
    apply no_proto_key_object in Hproto as [Hp Hproto].
    apply keys_satisfy_object in Horder as [Hord Horder].
    rewrite Forall_forall in IH, Hwf, Hproto, Horder.
    simpl in Hclean. rewrite forallb_forall in Hclean.
    rewrite sanitize_object by assumption. f_equal. unfold sanitized_entries.
    assert (Hmap : map (fun kv : string * Value => (fst kv, sanitize (snd kv))) props
                   = props).
    { rewrite <- (map_id props) at 2. apply map_ext_in. intros [k v] Hx. simpl.
      f_equal. specialize (Hclean (k, v) Hx). simpl in Hclean.
      apply andb_true_iff in Hclean as [_ Hc].
      apply (IH (k, v) Hx);
        [apply (Hwf (k, v) Hx)|apply (Hproto (k, v) Hx)
        |apply (Horder (k, v) Hx)|assumption]. }
    rewrite Hmap. apply filter_all. intros [k v] Hx.
    specialize (Hclean (k, v) Hx). now apply andb_true_iff in Hclean as [Hv _].
Qed.

Lemma sanitize_fixes_clean_witness :
  sanitize (VObject [("name", VString "x"); ("list", VArray [num 0; VBool false])])
  = VObject [("name", VString "x"); ("list", VArray [num 0; VBool false])].
Proof.
  exact (sanitize_fixes_clean
           (VObject [("name", VString "x"); ("list", VArray [num 0; VBool false])])
           eq_refl eq_refl eq_refl eq_refl).
Defined.

(** ** The key renamer on arrays and records *)



(** Assignments to new names that are in the order of [Object.keys] add
    their entries one after the other. *)
Lemma fold_left_set_fresh (newKey : string -> string) (newValue : Value -> Value)
    (l init : object) :
  (forall key, newKey key <> "__proto__") ->
  NoDup (obj_keys init ++ map newKey (obj_keys l)) ->
  key_order (obj_keys init ++ map newKey (obj_keys l)) = true ->
  fold_left
    (fun result kv => obj_set result (newKey (fst kv)) (newValue (snd kv))) l init
  = init ++ map (fun kv => (newKey (fst kv), newValue (snd kv))) l.
Proof.
  intros Hkey. revert init.
  induction l as [|[k v] l IH]; intros init Hnd Hord; simpl.
  - now rewrite app_nil_r.
  - simpl in Hnd, Hord.
    assert (Hfresh : ~ In (newKey k) (obj_keys init)).
    { apply NoDup_remove_2 in Hnd. intros Hin. apply Hnd.
      apply in_or_app. now left. }
    rewrite obj_set_append; [|assumption|apply Hkey|].
    + rewrite IH.
      * now rewrite <- app_assoc.
      * unfold obj_keys in *. rewrite map_app, <- app_assoc. exact Hnd.
      * unfold obj_keys in *. rewrite map_app, <- app_assoc. exact Hord.
    + change (newKey k :: map newKey (obj_keys l))
        with ([newKey k] ++ map newKey (obj_keys l)) in Hord.
      rewrite app_assoc in Hord. now apply key_order_app in Hord as [H _].
Qed.

Lemma NoDup_map_filter {A B} (f : A -> B) (q : A -> bool) l :
  NoDup (map f l) -> NoDup (map f (filter q l)).
Proof.
  induction l as [|x l IH]; simpl; intros Hnd; [constructor|].
  inversion Hnd as [|? ? Hn Hd]; subst.
  destruct (q x); simpl; [|now apply IH].
  constructor; [|now apply IH].
  intros Hin. apply Hn. apply in_map_iff in Hin as [y [Hy Hin]].
  apply in_map_iff. exists y. split; [assumption|].
  now apply filter_In in Hin as [Hin _].
Qed.

Lemma map_filter_swap {A B} (f : A -> B) (p : B -> bool) l :
  map f (filter (fun x => p (f x)) l) = filter p (map f l).
Proof.
  induction l as [|x l IH]; simpl; [reflexivity|].
  destruct (p (f x)); simpl; now rewrite IH.
Qed.

Section CamelizeFacts.

Context {CM : CaseMapping}.

Lemma camelize_camelizeObject v : camelize v = camelizeObject v.
Proof. destruct v; unfold camelize, camelizeObject, camelizeArray; now simp camelizeWith. Qed.

Lemma camelize_array_eq arr : camelize (VArray arr) = VArray (map camelize arr).
Proof.
  unfold camelize, camelizeArray. simp camelizeWith. f_equal.
  rewrite (map_indices
             (fun item =>
                if isArray item then camelizeWith CamelizeArray item
                else camelizeWith CamelizeObject item)).
  apply map_ext. intros item.
  destruct item; unfold camelize, camelizeObject, camelizeArray; simpl;
    now simp camelizeWith.
Qed.

(** X11. [camelize] and the private [camelizeObject] are the same function,
    and on an array they rename element by element: the result has the same
    length and its i-th element is the camelized i-th element, whether that
    element is an array, a record or a scalar. *)
Theorem camelize_array (v : Value) (arr : list Value) :
  camelize v = camelizeObject v
  /\ camelize (VArray arr) = VArray (map camelize arr)
  /\ camelizeArray (VArray arr) = VArray (map camelize arr)
  /\ (forall i, array_get (map camelize arr) i = camelize (array_get arr i)).
Proof.
  split; [apply camelize_camelizeObject|].
  split; [apply camelize_array_eq|].
  split; [exact (camelize_array_eq arr)|].
  intros i. unfold array_get.
  change VUndefined with (camelize VUndefined) at 1. apply map_nth.
Qed.

Lemma camelize_object_distinct input :
  NoDup (map transformedKey (obj_keys input)) ->
  key_order (map transformedKey (obj_keys input)) = true ->
  camelize (VObject input)
  = VObject (map (fun kv => (transformedKey (fst kv), camelize (snd kv))) input).
Proof.
  intros Hsafe Hord. pose proof (NoDup_map_inv _ _ Hsafe) as Hnd.
  rewrite camelize_object. f_equal.
  rewrite (fold_left_keys
             (fun result k v => obj_set result (transformedKey k) (camelizeObject v))
             input [] Hnd).
  rewrite (fold_left_set_fresh transformedKey camelizeObject input []
             transformedKey_not_proto Hsafe Hord).
  simpl. apply map_ext. intros kv. now rewrite camelize_camelizeObject.
Qed.

(** X12. When no two keys of a record get the same new name and the new
    names are in the order of [Object.keys] (so none of them is an array
    index that would be listed before an earlier name), [camelize] renames
    the keys in place: same number of entries, same order, each key
    replaced by its new name and each value camelized. *)
Theorem camelize_renames_in_place (input : object)
    (Hsafe : nodupb (map transformedKey (obj_keys input)) = true)
    (Horder : key_order (map transformedKey (obj_keys input)) = true) :
  camelize (VObject input)
  = VObject (map (fun kv => (transformedKey (fst kv), camelize (snd kv))) input).
Proof.
  apply nodupb_NoDup in Hsafe. pose proof (NoDup_map_inv _ _ Hsafe) as Hnd.
  rewrite camelize_object. f_equal.
  rewrite (fold_left_keys
             (fun result k v => obj_set result (transformedKey k) (camelizeObject v))
             input [] Hnd).
  rewrite (fold_left_set_fresh transformedKey camelizeObject input []
             transformedKey_not_proto Hsafe Horder).
  simpl. apply map_ext. intros kv. now rewrite camelize_camelizeObject.
Qed.


End CamelizeFacts.

Lemma camelize_renames_in_place_witness :
  camelize (VObject [("person_name", VString "x"); ("is_active", VBool true)])
  = VObject
      (map (fun kv => (transformedKey (fst kv), camelize (snd kv)))
         [("person_name", VString "x"); ("is_active", VBool true)]).
Proof.
  exact (camelize_renames_in_place
           [("person_name", VString "x"); ("is_active", VBool true)]
           eq_refl eq_refl).
Defined.

(** ** Renaming keys, validity and sanitizing *)

Section CamelizeCompose.

Context {CM : CaseMapping}.

Lemma rename_safe_array items :
  rename_safe (VArray items) = true -> Forall (fun v => rename_safe v = true) items.
Proof. simpl. intros H. apply Forall_forall. now apply forallb_forall. Qed.

Lemma rename_safe_object_iff props :
  rename_safe (VObject props) = true
  <-> (NoDup (map transformedKey (obj_keys props))
       /\ key_order (map transformedKey (obj_keys props)) = true)
      /\ (~ In "__proto__" (obj_keys props)
          /\ key_order (obj_keys props) = true)
      /\ Forall (fun kv => rename_safe (snd kv) = true) props.
Proof.
  cbn [rename_safe].
  change (existsb (String.eqb "__proto__") (obj_keys props))
    with (has_own props "__proto__").
  rewrite !andb_true_iff, nodupb_NoDup, negb_true_iff, Forall_forall, forallb_forall.
  split.
  - intros ((((Hnd & Hproto) & Hord) & Hnew) & Hall). repeat split; try assumption.
    intros Hin. apply has_own_true in Hin. congruence.
  - intros ((Hnd & Hnew) & (Hproto & Hord) & Hall). repeat split; try assumption.
    now apply has_own_false.
Qed.

Lemma rename_safe_object props :
  rename_safe (VObject props) = true ->
  (NoDup (map transformedKey (obj_keys props))
   /\ key_order (map transformedKey (obj_keys props)) = true)
  /\ (NoDup (obj_keys props)
      /\ ~ In "__proto__" (obj_keys props)
      /\ key_order (obj_keys props) = true)
  /\ Forall (fun kv => rename_safe (snd kv) = true) props.
Proof.
  intros H. apply rename_safe_object_iff in H as ((Hnd & Hnew) & (Hp & Hord) & Hall).
  repeat split; try assumption. now apply NoDup_map_inv in Hnd.
Qed.

Lemma obj_keys_renamed (f : Value -> Value) props :
  obj_keys (map (fun kv => (transformedKey (fst kv), f (snd kv))) props)
  = map transformedKey (obj_keys props).
Proof. unfold obj_keys. rewrite !map_map. reflexivity. Qed.

Lemma renamed_not_proto keys : ~ In "__proto__" (map transformedKey keys).
Proof.
  intros Hin. apply in_map_iff in Hin as (key & Hkey & _).
  now apply (transformedKey_not_proto key).
Qed.

Lemma isValid_camelize_safe t :
  rename_safe t = true -> isValid (camelize t) = isValid t.
Proof.
  induction t as [| | | | |s| |items IH|props IH] using value_rect'; intros Hsafe;
    try reflexivity.
  - apply rename_safe_array in Hsafe. rewrite Forall_forall in IH, Hsafe.
    rewrite camelize_array_eq, !isValid_array, existsb_map_compose.
    apply existsb_ext_Forall. apply Forall_forall. intros v Hv. now apply IH; [|apply Hsafe].
  - apply rename_safe_object in Hsafe as ((Hnew & Hordn) & (Hnd & _) & Hsafe).
    rewrite Forall_forall in IH, Hsafe.
    rewrite camelize_object_distinct by assumption.
    rewrite isValid_object by (now rewrite obj_keys_renamed).
    rewrite isValid_object by assumption.
    rewrite existsb_map_compose. simpl.
    apply existsb_ext_Forall. apply Forall_forall. intros kv Hkv.
    apply (IH kv Hkv). now apply Hsafe.
Qed.

Lemma obj_keys_sanitized props :
  obj_keys (sanitized_entries props)
  = map fst (filter (fun kv => isValid (sanitize (snd kv))) props).
Proof.
  unfold obj_keys, sanitized_entries.
  rewrite <- (map_filter_swap (fun kv : string * Value => (fst kv, sanitize (snd kv)))
                (fun kv => isValid (snd kv))).
  now rewrite map_map.
Qed.

Lemma rename_safe_sanitize t :
  rename_safe t = true -> rename_safe (sanitize t) = true.
Proof.
  induction t as [| | | | |s| |items IH|props IH] using value_rect'; intros Hsafe;
    try reflexivity.
  - apply rename_safe_array in Hsafe. rewrite Forall_forall in IH, Hsafe.
    rewrite sanitize_array. simpl. apply forallb_forall. intros y Hy.
    apply filter_In in Hy as [Hy _]. apply in_map_iff in Hy as [x [<- Hx]].
    now apply IH; [|apply Hsafe].
  - apply rename_safe_object in Hsafe
      as ((Hnew & Hordn) & (Hnd & Hproto & Hord) & Hsafe).
    rewrite Forall_forall in IH, Hsafe.
    rewrite sanitize_object by assumption. apply rename_safe_object_iff.
    rewrite obj_keys_sanitized, map_map.
    unfold obj_keys in *. rewrite map_map in Hnew, Hordn.
    repeat split.
    + now apply (NoDup_map_filter (fun kv : string * Value => transformedKey (fst kv))).
    + now apply (key_order_map_filter (fun kv : string * Value => transformedKey (fst kv))).
    + intros Hin. apply Hproto. apply in_map_iff in Hin as (kv & Hkv & Hin).
      apply filter_In in Hin as [Hin _]. apply in_map_iff. now exists kv.
    + now apply key_order_map_filter.
    + apply Forall_forall. intros y Hy. apply filter_In in Hy as [Hy _].
      apply in_map_iff in Hy as [[k v] [<- Hx]]. simpl.
      apply (IH (k, v) Hx). apply (Hsafe (k, v) Hx).
Qed.

(** X14. When, in every record of [t], no two keys get the same new name,
    no key is [__proto__], and the keys and their new names are in the
    order of [Object.keys], renaming the keys changes neither what is valid
    nor what [sanitize] removes: [isValid(camelize(t))] is [isValid(t)],
    and sanitizing the camelized tree gives the camelized sanitized tree. *)
Theorem camelize_commutes_with_sanitize (t : Value)
    (Hsafe : rename_safe t = true) :
  isValid (camelize t) = isValid t
  /\ sanitize (camelize t) = camelize (sanitize t).
Proof.
  split; [now apply isValid_camelize_safe|].
  revert Hsafe.
  induction t as [| | | | |s| |items IH|props IH] using value_rect'; intros Hsafe;
    try reflexivity.
  - pose proof (rename_safe_array _ Hsafe) as Hall.
    rewrite Forall_forall in IH, Hall.
    rewrite camelize_array_eq, !sanitize_array, camelize_array_eq. f_equal.
    transitivity
      (map camelize (filter (fun x => isValid (camelize x)) (map sanitize items))).
    + rewrite (map_filter_swap camelize isValid). rewrite !map_map. f_equal.
      apply map_ext_in. intros x Hx. now apply IH; [|apply Hall].
    + f_equal. apply filter_ext_in. intros y Hy.
      apply in_map_iff in Hy as [x [<- Hx]].
      apply isValid_camelize_safe. apply rename_safe_sanitize. now apply Hall.
  - pose proof (rename_safe_sanitize _ Hsafe) as Hsafe'.
    apply rename_safe_object in Hsafe
      as ((Hnew & Hordn) & (Hnd & Hproto & Hord) & Hall).
    rewrite Forall_forall in IH, Hall.
    rewrite sanitize_object in Hsafe' |- * by assumption.
    apply rename_safe_object in Hsafe' as ((Hnew' & Hordn') & _ & _).
    rewrite camelize_object_distinct by assumption.
    rewrite sanitize_object
      by (rewrite obj_keys_renamed; solve [assumption | apply renamed_not_proto]).
    rewrite camelize_object_distinct by assumption.
    f_equal. unfold sanitized_entries.
    pose proof (map_filter_swap
                  (fun kv : string * Value => (transformedKey (fst kv), camelize (snd kv)))
                  (fun kv => isValid (snd kv))
                  (map (fun kv => (fst kv, sanitize (snd kv))) props)) as Hswap.
    etransitivity; [|etransitivity; [symmetry; exact Hswap|]].
    + rewrite !map_map. simpl. f_equal. apply map_ext_in. intros [k v] Hx. simpl.
      f_equal. apply (IH (k, v) Hx). apply (Hall (k, v) Hx).
    + f_equal. apply filter_ext_in. intros y Hy.
      apply in_map_iff in Hy as [[k v] [<- Hx]]. simpl.
      apply isValid_camelize_safe. apply rename_safe_sanitize.
      apply (Hall (k, v) Hx).
Qed.

End CamelizeCompose.

Lemma camelize_commutes_with_sanitize_witness :
  let t := VObject [("person_name", VString " x "); ("old_roles", VArray []);
                    ("roles", VArray [VObject [("role_1", VString " ")];
                                      VObject [("role_2", VString "admin")]])] in
  isValid (camelize t) = isValid t
  /\ sanitize (camelize t) = camelize (sanitize t).
Proof.
  exact (camelize_commutes_with_sanitize
           (VObject [("person_name", VString " x "); ("old_roles", VArray []);
                     ("roles", VArray [VObject [("role_1", VString " ")];
                                       VObject [("role_2", VString "admin")]])])
           eq_refl).
Defined.

(** ** [groupBy]: the groups, exceptions, and [normalize] as first of group *)

Lemma group_value_snoc group x : group_value (group ++ [x]) = VArray (group ++ [x]).
Proof. now destruct group. Qed.

Lemma obj_get_defined_own o k : obj_get o k <> VUndefined -> In k (obj_keys o).
Proof.
  intros H. destruct (in_dec string_dec k (obj_keys o)) as [|Hout]; [assumption|].
  now rewrite obj_get_absent in H.
Qed.


Section GroupByFacts.

Variable fn_call : nat -> Value -> option string.
Variable f : nat.
Variable keyOf : Value -> string.

(** The elements stored under a slot of the accumulator. *)
Let stored (v : Value) : list Value :=
  match v with VArray group => group | _ => [] end.

Lemma members_cons x items k :
  members keyOf (x :: items) k
  = if String.eqb (keyOf x) k && isValid (VString k)
    then x :: members keyOf items k
    else members keyOf items k.
Proof.
  unfold members. simpl.
  destruct (isValid (VString k)), (String.eqb (keyOf x) k); reflexivity.
Qed.

Lemma groupBy_step_skips acc x :
  fn_call f x = Some (keyOf x) ->
  isValid (VString (keyOf x)) = false ->
  groupBy_step fn_call f (Some acc) x = Some acc.
Proof. intros Hcall V. unfold groupBy_step. now rewrite Hcall, V. Qed.

Lemma groupBy_step_appends acc x :
  fn_call f x = Some (keyOf x) ->
  isValid (VString (keyOf x)) = true ->
  is_prototype_member (keyOf x) = false ->
  obj_get acc (keyOf x) = group_value (stored (obj_get acc (keyOf x))) ->
  exists acc2,
    groupBy_step fn_call f (Some acc) x = Some acc2
    /\ (forall k,
          obj_get acc2 k
          = if String.eqb (keyOf x) k
            then VArray (stored (obj_get acc (keyOf x)) ++ [x])
            else obj_get acc k)
    /\ (forall k, In k (obj_keys acc2) -> k = keyOf x \/ In k (obj_keys acc)).
Proof.
  intros Hcall V Hord Hk. pose proof (not_proto_of_ordinary _ Hord) as Hp.
  unfold groupBy_step. rewrite Hcall, V. cbv zeta. simpl negb.
  cbv iota. rewrite !(fun o => obj_read_ordinary o (keyOf x) Hord).
  destruct (stored (obj_get acc (keyOf x))) as [|y g0] eqn:Eg;
    simpl in Hk; rewrite Hk; simpl.
  - rewrite obj_get_obj_set, String.eqb_refl by assumption.
    eexists. split; [reflexivity|]. split.
    + intros k. rewrite !obj_get_obj_set by assumption.
      now destruct (String.eqb (keyOf x) k).
    + intros k Hin. apply obj_keys_obj_set in Hin as [[-> _]|Hin]; [now left|].
      apply obj_keys_obj_set in Hin as [[-> _]|Hin]; [now left|now right].
  - rewrite Hk. eexists. split; [reflexivity|]. split.
    + intros k. now rewrite obj_get_obj_set by assumption.
    + intros k Hin. apply obj_keys_obj_set in Hin as [[-> _]|Hin];
        [now left|now right].
Qed.

Lemma groupBy_fold items accumulator :
  (forall x, In x items -> fn_call f x = Some (keyOf x)) ->
  (forall x, In x items -> is_prototype_member (keyOf x) = false) ->
  (forall k, obj_get accumulator k = group_value (stored (obj_get accumulator k))) ->
  (forall k, In k (obj_keys accumulator) -> obj_get accumulator k <> VUndefined) ->
  exists result,
    fold_left (groupBy_step fn_call f) items (Some accumulator) = Some result
    /\ (forall k,
          obj_get result k
          = group_value (stored (obj_get accumulator k) ++ members keyOf items k))
    /\ (forall k, In k (obj_keys result) -> obj_get result k <> VUndefined).
Proof.
  revert accumulator.
  induction items as [|x items IH]; intros acc Hcall Hord Hacc Hown.
  - exists acc. split; [reflexivity|]. split; [|assumption].
    intros k. unfold members. simpl.
    destruct (isValid (VString k)); now rewrite app_nil_r.
  - change (fold_left (groupBy_step fn_call f) (x :: items) (Some acc))
      with (fold_left (groupBy_step fn_call f) items
              (groupBy_step fn_call f (Some acc) x)).
    pose proof (Hcall x (or_introl eq_refl)) as Hx.
    pose proof (Hord x (or_introl eq_refl)) as Ox.
    assert (Hcall' : forall y, In y items -> fn_call f y = Some (keyOf y))
      by (intros; apply Hcall; now right).
    assert (Hord' : forall y, In y items -> is_prototype_member (keyOf y) = false)
      by (intros; apply Hord; now right).
    destruct (isValid (VString (keyOf x))) eqn:V.
    + destruct (groupBy_step_appends acc x Hx V Ox (Hacc (keyOf x)))
        as (acc2 & -> & Hget2 & Hkeys2).
      destruct (IH acc2 Hcall' Hord') as (result & Hfold & Hget & Hres).
      * intros k. rewrite Hget2. destruct (String.eqb (keyOf x) k).
        -- simpl. now rewrite group_value_snoc.
        -- apply Hacc.
      * intros k Hin. rewrite Hget2.
        destruct (String.eqb_spec (keyOf x) k) as [E|E].
        -- discriminate.
        -- destruct (Hkeys2 k Hin) as [->|Hin']; [contradiction|now apply Hown].
      * exists result. split; [assumption|]. split; [|assumption].
        intros k. rewrite Hget, Hget2, members_cons.
        destruct (String.eqb_spec (keyOf x) k) as [E|E]; simpl.
        -- subst k. rewrite V. simpl. now rewrite <- app_assoc.
        -- reflexivity.
    + rewrite (groupBy_step_skips acc x Hx V).
      destruct (IH acc Hcall' Hord' Hacc Hown) as (result & Hfold & Hget & Hres).
      exists result. split; [assumption|]. split; [|assumption].
      intros k. rewrite Hget, members_cons.
      destruct (String.eqb_spec (keyOf x) k) as [E|E]; simpl; [|reflexivity].
      now rewrite <- E, V.
Qed.

Lemma groupBy_fold_None items :
  fold_left (groupBy_step fn_call f) items None = None.
Proof. induction items as [|x items IH]; simpl; auto. Qed.

Lemma normalize_fold_None items :
  fold_left (normalize_step fn_call f) items None = None.
Proof. induction items as [|x items IH]; simpl; auto. Qed.

End GroupByFacts.

Lemma ordinary_derived_keys (keyOf : Value -> string) items :
  forallb (fun x => negb (is_prototype_member (keyOf x))) items = true ->
  forall x, In x items -> is_prototype_member (keyOf x) = false.
Proof.
  intros H x Hx. rewrite forallb_forall in H. apply negb_true_iff. now apply H.
Qed.

(** X15. When the key generator returns a string on every element and no
    derived key names a member of [Object.prototype], [groupBy] returns (it
    does not throw) a mapping in which every key holds the array of the
    elements with that derived key, in input order; its keys are exactly
    the valid derived keys, so no group is empty and an element whose key
    is invalid is in no group. *)
Theorem groupBy_groups
    (fn_call : nat -> Value -> option string) (f : nat)
    (keyOf : Value -> string) (items : list Value)
    (Hcall : forall x, In x items -> fn_call f x = Some (keyOf x))
    (Hkeys : forallb (fun x => negb (is_prototype_member (keyOf x))) items = true) :
  exists result,
    groupBy fn_call (VArray items) (VFunction f) = Some (VObject result)
    /\ (forall k, obj_get result k = group_value (members keyOf items k))
    /\ (forall k, In k (obj_keys result) <-> members keyOf items k <> []).
Proof.
  destruct (groupBy_fold fn_call f keyOf items [] Hcall
              (ordinary_derived_keys keyOf items Hkeys))
    as (result & Hfold & Hget & Hown).
  - reflexivity.
  - intros k [].
  - exists result. split; [exact (f_equal (option_map VObject) Hfold)|].
    split; [exact Hget|]. intros k. split.
    + intros Hin Hnil. apply (Hown k Hin). rewrite Hget. simpl.
      now rewrite Hnil.
    + intros Hne. apply obj_get_defined_own. rewrite Hget. simpl.
      destruct (members keyOf items k); [contradiction|discriminate].
Qed.

Lemma groupBy_groups_witness :
  let genre x := match obj_get (match x with VObject o => o | _ => [] end) "g" with
                 | VString s => s
                 | _ => ""
                 end in
  let items := [VObject [("g", VString "A")]; num 0; VObject [("g", VString "B")];
                VObject [("g", VString "A"); ("n", num 2)]] in
  exists result,
    groupBy (fun _ x => Some (genre x)) (VArray items) (VFunction 0)
    = Some (VObject result)
    /\ (forall k, obj_get result k = group_value (members genre items k))
    /\ (forall k, In k (obj_keys result) <-> members genre items k <> []).
Proof.
  intros genre items.
  exact (groupBy_groups (fun _ x => Some (genre x)) 0 genre items
           (fun _ _ => eq_refl) eq_refl).
Defined.

(** X16. An exception thrown by the key generator on some element escapes
    both [groupBy] and [normalize]: neither catches it, and neither returns
    a partial mapping. *)
Theorem key_generator_exception_escapes
    (fn_call : nat -> Value -> option string) (f : nat)
    (items : list Value) (x : Value)
    (Hin : In x items) (Hthrows : fn_call f x = None) :
  groupBy fn_call (VArray items) (VFunction f) = None
  /\ normalize fn_call (VArray items) (VFunction f) = None.
Proof.
  apply in_split in Hin as (before & rest & ->).
  unfold groupBy, normalize. rewrite !fold_left_app. simpl.
  split.
  - replace (groupBy_step fn_call f
               (fold_left (groupBy_step fn_call f) before (Some [])) x)
      with (@None object).
    + now rewrite groupBy_fold_None.
    + unfold groupBy_step. destruct (fold_left _ before _); [|reflexivity].
      now rewrite Hthrows.
  - replace (normalize_step fn_call f
               (fold_left (normalize_step fn_call f) before (Some [])) x)
      with (@None object).
    + now rewrite normalize_fold_None.
    + unfold normalize_step. destruct (fold_left _ before _); [|reflexivity].
      now rewrite Hthrows.
Qed.

Lemma key_generator_exception_escapes_witness :
  let fn_call (_ : nat) (x : Value) :=
    match x with VObject _ => Some "k" | _ => None end in
  groupBy fn_call (VArray [VObject []; VNull; VObject []]) (VFunction 0) = None
  /\ normalize fn_call (VArray [VObject []; VNull; VObject []]) (VFunction 0) = None.
Proof.
  intros fn_call.
  refine (key_generator_exception_escapes fn_call 0
            [VObject []; VNull; VObject []] VNull _ eq_refl).
  simpl. right. left. reflexivity.
Defined.



(** ** Title case twice *)

Module SplitJoinFacts.
Import JsString.

Lemma split_loop_at_separator c p rest segment :
  has_char c p = false ->
  split_loop (String c EmptyString) (p ++ String c rest)%string segment
  = (segment ++ p)%string :: split_loop (String c EmptyString) rest EmptyString.
Proof.
  revert segment. induction p as [|c' p IH]; intros segment H; simpl;
    simp split_loop; simpl.
  - destruct (ascii_dec c c) as [_|Hne]; [|contradiction].
    replace (String.prefix EmptyString rest) with true by now destruct rest.
    simpl. now rewrite SplitFacts.append_empty_r.
  - simpl in H. apply orb_false_iff in H as [Hc Hp].
    destruct (ascii_dec c c') as [->|Hne].
    + now rewrite Ascii.eqb_refl in Hc.
    + simpl. rewrite IH by assumption. now rewrite SplitFacts.append_assoc.
Qed.

(** Splitting what was joined on one character gives the pieces back, when
    no piece contains that character. *)
Lemma split_join_pieces c pieces :
  pieces <> [] ->
  Forall (fun p => has_char c p = false) pieces ->
  split (join pieces (String c EmptyString)) (String c EmptyString) = pieces.
Proof.
  unfold split, join. intros Hne Hall.
  induction Hall as [|p pieces Hp Hall IH]; [contradiction|].
  destruct pieces as [|q pieces].
  - simpl. now rewrite SplitFacts.split_loop_absent.
  - change (String.concat (String c EmptyString) (p :: q :: pieces))
      with (p ++ String c (String.concat (String c EmptyString) (q :: pieces)))%string.
    rewrite split_loop_at_separator by assumption.
    simpl append. f_equal. apply IH. discriminate.
Qed.

Lemma split_nonempty s sep : sep <> EmptyString -> split s sep <> [].
Proof.
  intros Hsep. unfold split. destruct sep as [|a sep']; [contradiction|].
  destruct (SplitFacts.split_loop_nonempty (String a sep') s EmptyString)
    as (first & others & E).
  rewrite E. discriminate.
Qed.

End SplitJoinFacts.

(** X18. Title-casing twice with the default splitter gives the same string
    as title-casing once, provided that capitalizing a word of [s] creates
    no space and that capitalizing it again changes nothing (true of
    unaccented letters; a letter such as the sharp s, whose uppercase is two
    letters, breaks the second condition). *)
Theorem toTitleCase_idempotent {CM : CaseMapping} (s : string)
    (Hspace : forall v, In v (JsString.split s default_splitter) ->
                        JsString.has_char " " (capitalize v) = false)
    (Hstable : forall v, In v (JsString.split s default_splitter) ->
                         capitalize (capitalize v) = capitalize v) :
  toTitleCase (toTitleCase (VString s) default_splitter) default_splitter
  = toTitleCase (VString s) default_splitter.
Proof.
  simpl. f_equal. unfold titleCase at 1. unfold titleCase at 1.
  unfold default_splitter in *.
  rewrite (SplitJoinFacts.split_join_pieces " "%char).
  - rewrite map_map. unfold titleCase. f_equal. apply map_ext_in. exact Hstable.
  - intros Hnil. apply map_eq_nil in Hnil.
    now apply (SplitJoinFacts.split_nonempty s " ").
  - apply Forall_forall. intros p Hp. apply in_map_iff in Hp as [v [<- Hv]].
    now apply Hspace.
Qed.

Lemma toTitleCase_idempotent_witness :
  toTitleCase (toTitleCase (VString "barbie  giRL") default_splitter) default_splitter
  = toTitleCase (VString "barbie  giRL") default_splitter.
Proof.
  apply (toTitleCase_idempotent "barbie  giRL").
  - intros v Hv. vm_compute in Hv.
    destruct Hv as [<-|[<-|[<-|[]]]]; reflexivity.
  - intros v Hv. vm_compute in Hv.
    destruct Hv as [<-|[<-|[<-|[]]]]; reflexivity.
Defined.

(** ** The assertion and the validity oracle *)

(** X19. [invarient] returns normally on every value [isValid] accepts,
    numbers, large integers and booleans apart (of which [0], [NaN], [0n]
    and [false] are valid and yet make [invarient] throw). *)
Theorem invarient_accepts_valid (v : Value) (message : option string)
    (Hvalid : isValid v = true)
    (Hkind : typeof v <> TNumber /\ typeof v <> TBigint /\ typeof v <> TBoolean) :
  invarient v message = Returns.
Proof.
  destruct Hkind as (Hn & Hb & Hbool). unfold invarient.
  destruct v; try reflexivity; try discriminate Hvalid;
    try (now elim Hn); try (now elim Hb); try (now elim Hbool).
  simp isValid in Hvalid. simpl.
  destruct s as [|c s]; [discriminate Hvalid|reflexivity].
Qed.

Lemma invarient_accepts_valid_witness :
  invarient (VObject [("name", VString " shubham ")]) (Some "name is required")
  = Returns.
Proof.
  refine (invarient_accepts_valid
            (VObject [("name", VString " shubham ")]) (Some "name is required")
            eq_refl _).
  repeat split; discriminate.
Defined.

(** ** Deep equality as an equivalence, and its agreement with validity *)




Section EqualityEquivalence.

Context {CM : CaseMapping}.
Variables trimWhiteSpace ignoreCase : bool.





End EqualityEquivalence.





(** ** The repository's unit tests, replayed on the model *)

Example test_toTitleCase_plain :
  toTitleCase (VString "barbie girl, a niCe womAn") default_splitter
  = VString "Barbie Girl, A Nice Woman".
Proof. reflexivity. Qed.

Example test_toTitleCase_splitter :
  toTitleCase (VString "barbie_girl") "_" = VString "Barbie Girl".
Proof. reflexivity. Qed.

Example test_toTitleCase_number : toTitleCase (num 1234) default_splitter = num 1234.
Proof. reflexivity. Qed.

Example test_camelize_flat :
  camelize
    (VObject [("person_name", VString "shubham"); ("person_age", num 23);
              ("roles", VArray [VString "user"; VString "admin"]);
              ("is_active", VBool true)])
  = VObject [("personName", VString "shubham"); ("personAge", num 23);
             ("roles", VArray [VString "user"; VString "admin"]);
             ("isActive", VBool true)].
Proof. reflexivity. Qed.

Example test_camelize_list_of_objects :
  camelize (VArray [VObject [("role_1", VString "user")];
                    VArray [VString "hello"; VString "world"]])
  = VArray [VObject [("role1", VString "user")];
            VArray [VString "hello"; VString "world"]].
Proof. reflexivity. Qed.

Example test_isValid_invalid_objects :
  isValid (VArray [VObject [("code", VString ""); ("name", VString "");
                            ("description", VString "")]]) = false
  /\ isValid (VObject [("code", VString "123XX"); ("name", VString "")]) = true
  /\ isValid (VArray [VObject []; VObject []]) = false
  /\ isValid (VBool false) = true
  /\ isValid (VFunction 0) = false
  /\ isValid VUndefined = false.
Proof. repeat split; reflexivity. Qed.

Example test_groupBy :
  let genere x :=
    match x with
    | VObject o => match obj_get o "genere" with VString s => Some s | _ => None end
    | _ => None
    end in
  groupBy (fun _ => genere)
    (VArray [VObject [("name", VString "Infinity War"); ("genere", VString "SciFi")];
             VObject [("name", VString "Notebook"); ("genere", VString "Romance")];
             VObject [("name", VString "Endgame"); ("genere", VString "SciFi")];
             VObject [("name", VString "Dr Hola"); ("genere", VString "")]])
    (VFunction 0)
  = Some
      (VObject
         [("SciFi",
           VArray [VObject [("name", VString "Infinity War"); ("genere", VString "SciFi")];
                   VObject [("name", VString "Endgame"); ("genere", VString "SciFi")]]);
          ("Romance",
           VArray [VObject [("name", VString "Notebook"); ("genere", VString "Romance")]])]).
Proof. reflexivity. Qed.

Example test_areEqual_strings :
  areEqual (VString "hello") (VString "Hello") false true = true
  /\ areEqual (VString "hello") (VString "Hello") false false = false
  /\ areEqual (VString "hello") (VString "hello  ") false true = false
  /\ areEqual (VString "hello") (VString "hello  ") true true = true
  /\ areEqual (VString "hello") (VArray [VString "hello"]) false true = false.
Proof. repeat split; reflexivity. Qed.

Example test_areEqual_nested :
  areEqual
    (VArray [VObject [("codes", VArray [VObject [("code", VString "XXX")];
                                        VObject [("code", VString "yyy")]]);
                      ("name", VString "ping pong")]])
    (VArray [VObject [("codes", VArray [VObject [("code", VString "XXX")];
                                        VObject [("code", VString "YYY2")]]);
                      ("name", VString "ping pong")]])
    false true = false
  /\ areEqual (VObject [("code", VString "XXX")]) VNull false true = false
  /\ areEqual VNull VNull false true = true
  /\ areEqual (VFunction 1) (VFunction 1) false true = true
  /\ areEqual (VFunction 1) (VFunction 2) false true = false
  /\ areEqual (num 1234) (num (-1234)) false true = false.
Proof. repeat split; reflexivity. Qed.

Example test_sanitize_object :
  sanitize
    (VArray [VObject [("code", VString "X"); ("name", VString "  cd dvd  ");
                      ("description", VString "");
                      ("info", VObject [("zip", num 1234); ("add", VObject [])])];
             VObject []])
  = VArray [VObject [("code", VString "X"); ("name", VString "cd dvd");
                     ("info", VObject [("zip", num 1234)])]].
Proof. reflexivity. Qed.

(** ** Keys that meet [Object.prototype], and keys that are array indices *)

(** A derived key that names an inherited member: [normalize] stores
    nothing under it, [groupBy] throws on it. *)
Example indexers_on_inherited_key :
  let word (_ : nat) (x : Value) :=
    match x with VString s => Some s | _ => None end in
  let words := VArray [VString "a"; VString "constructor"] in
  normalize word words (VFunction 0) = Some (VObject [("a", VString "a")])
  /\ groupBy word words (VFunction 0) = None
  /\ normalize word (VArray [VString "__proto__"]) (VFunction 0) = Some (VObject [])
  /\ groupBy word (VArray [VString "__proto__"]) (VFunction 0) = None.
Proof. repeat split; reflexivity. Qed.

(** The second record is read through its prototype: an own key
    [__proto__] holding [{}] is matched by the inherited accessor, and an
    own [constructor] holding [Object] by the inherited method. *)
Example areEqual_reads_inherited_members :
  let a := VObject [("__proto__", VObject [])] in
  let b := VObject [("x", num 1)] in
  let c := VObject [("constructor", VFunction 100)] in
  areEqual a b false true = true
  /\ areEqual b a false true = false
  /\ areEqual c b false true = true
  /\ areEqual b c false true = false
  /\ isValid a = false
  /\ isValid b = true.
Proof. repeat split; reflexivity. Qed.

(** A new name that is an array index is listed first. *)
Example camelize_moves_index_key :
  transformedKey "_1" = "1"
  /\ camelize (VObject [("b", num 1); ("_1", num 2)])
     = VObject [("1", num 2); ("b", num 1)].
Proof. split; reflexivity. Qed.

(** The key [__proto__] is renamed [Proto] by [camelize] and dropped by
    [sanitize], so the two do not commute on it. *)
Example camelize_sanitize_on_proto_key :
  let t := VObject [("__proto__", num 5)] in
  transformedKey "__proto__" = "Proto"
  /\ sanitize (camelize t) = VObject [("Proto", num 5)]
  /\ camelize (sanitize t) = VObject [].
Proof. repeat split; reflexivity. Qed.

(** A record with nothing to remove is still changed by [sanitize] when it
    has the key [__proto__]. *)
Example sanitize_on_clean_proto_key :
  let t := VObject [("__proto__", num 5); ("a", num 1)] in
  clean t = true /\ sanitize t = VObject [("a", num 1)].
Proof. split; reflexivity. Qed.
